(** * Function-signature optimisation: argument descriptors and the
      explosion decision (lib/SILOptimizer/Transforms/FunctionSignatureOpts.h),
      and the power-of-two tests of the isPower(of:) benchmark.

    The inline member functions of the header are embedded as functions over
    records that hold what those functions read.  Services that the header
    only calls (type lowering, the expansion oracle, the release matcher,
    the projection tree) are parameters or small models, each marked where
    it is introduced. *)

From stdpp Require Import gmap strings list fin_maps.
From Stdlib Require Import ZArith Lia.

Set Warnings "-register-all".

(** ** SIL types and argument conventions *)

Inductive SILValueCategory := Object | Address.

#[global] Instance SILValueCategory_eq_dec : EqDecision SILValueCategory.
Proof. solve_decision. Defined.

(** Modelled from the spec: SILType (swift/SIL/SILType.h) is declared
    outside this header.  A type is passed directly (an object) or indirectly
    (an address) and may contain generic/opaque sub-parts (archetypes); these
    are the only observations [canOptimizeLiveArg] and [shouldExplode] make. *)
Record SILType := {
  TypeName : string;
  Category : SILValueCategory;
  ContainsArchetype : bool;
}.

Definition isObject (T : SILType) : bool := bool_decide (Category T = Object).
Definition isAddress (T : SILType) : bool := bool_decide (Category T = Address).
Definition hasArchetype (T : SILType) : bool := ContainsArchetype T.
Definition getObjectType (T : SILType) : SILType :=
  {| TypeName := TypeName T; Category := Object;
     ContainsArchetype := ContainsArchetype T |}.

(** Modelled from the spec: the enumeration SILArgumentConvention
    (swift/SIL/SILArgumentConvention.h) is declared outside this header.
    The header names [Direct_Owned], [Indirect_In] and
    [Indirect_In_Guaranteed]; the remaining constructors follow the ownership
    conventions listed in the data model (Guaranteed, Unowned, Trivial,
    IndirectInOut, IndirectResult). *)
Module SILArgumentConvention.
Inductive t :=
| Direct_Owned
| Direct_Guaranteed
| Direct_Unowned
| Direct_Trivial
| Indirect_Inout
| Indirect_In
| Indirect_In_Guaranteed
| Indirect_Out.

#[global] Instance eq_dec : EqDecision t.
Proof. solve_decision. Defined.
End SILArgumentConvention.

(** Modelled from the spec: the enumeration ValueOwnershipKind is declared
    outside this header; the header names [Trivial] and [Guaranteed]. *)
Module ValueOwnershipKind.
Inductive t := Trivial | Unowned | Owned | Guaranteed.

#[global] Instance eq_dec : EqDecision t.
Proof. solve_decision. Defined.
End ValueOwnershipKind.

Record SILParameterInfo := {
  ParamType : SILType;
  ParamConvention : SILArgumentConvention.t;
}.

(** Handles of instructions (release and retain sites) and declarations. *)
Definition SILInstruction := positive.
Definition ValueDecl := string.
Definition ReleaseList := list SILInstruction.

(** ** Projection trees *)

(** Modelled from the spec: ProjectionTree (swift/SIL/Projection.h) is
    declared outside this header.  The data model describes it as the plan
    that breaks a value into its sub-fields, with a marker for singleton
    trees (one field wrapping another, arbitrarily nested) and a count of
    live leaf fields.  A node carries its type, whether it is live, and the
    nodes of its fields; a type that cannot be exploded has a root and no
    fields. *)
Inductive ProjectionTreeNode :=
| PTNode (NodeType : SILType) (IsLive : bool)
         (ChildProjections : list ProjectionTreeNode).

Definition ProjectionTree := ProjectionTreeNode.

Fixpoint isSingleton (T : ProjectionTree) : bool :=
  match T with
  | PTNode _ _ [] => true
  | PTNode _ _ [Child] => isSingleton Child
  | PTNode _ _ _ => false
  end.

Fixpoint liveLeaves (T : ProjectionTree) : nat :=
  match T with
  | PTNode _ live [] => if live then 1 else 0
  | PTNode _ _ children => list_sum (map liveLeaves children)
  end.

(** The accessor returns an [unsigned]; the callers only compare it. *)
Definition getLiveLeafCount (T : ProjectionTree) : N := N.of_nat (liveLeaves T).

(** [wrap n T] nests [T] inside [n] single-field aggregates. *)
Fixpoint wrap (Ty : SILType) (n : nat) (T : ProjectionTree) : ProjectionTree :=
  match n with
  | O => T
  | S n' => PTNode Ty false [wrap Ty n' T]
  end.

(** ** The release matcher *)

(** Modelled from the spec: ConsumedArgToEpilogueReleaseMatcher
    (swift/SILOptimizer/Analysis/ARCAnalysis.h) is declared outside this
    header.  The matcher returns, for an argument, the complete or partial
    set of release sites attributable to it: the sites it matched, and
    whether they are all the releases of the argument.  An argument the
    matcher has no entry for has no matched release. *)
Record MatchedReleases := {
  releaseSites : ReleaseList;
  isComplete : bool;
}.

Record ConsumedArgToEpilogueReleaseMatcher := {
  ArgInstMap : gmap N MatchedReleases;
}.

Definition matchedReleasesFor (ERM : ConsumedArgToEpilogueReleaseMatcher)
    (ArgIdx : N) : MatchedReleases :=
  default {| releaseSites := []; isComplete := false |} (ArgInstMap ERM !! ArgIdx).

(** ** Argument descriptors *)

Section ArgumentDescriptors.

(** The module that owns the function under optimisation, and the two
    services that are asked about its types: the expansion oracle
    [shouldExpand(Module, Ty)] and type lowering's [Ty.isTrivial(Module)]. *)
Variable SILModule : Type.
Variable shouldExpand : SILModule -> SILType -> bool.
Variable isTrivial : SILType -> SILModule -> bool.

(** The constructor of the projection tree, [ProjectionTree(Module, Ty)]. *)
Variable newProjectionTree : SILModule -> SILType -> ProjectionTree.

(** What the descriptor reads from a [SILFunctionArgument *]. *)
Record SILFunctionArgument := {
  getModule : SILModule;
  getType : SILType;
  getIndex : N;
  getDecl : option ValueDecl;
  getKnownParameterInfo : SILParameterInfo;
  isIndirectResult : bool;
  getArgumentConvention : SILArgumentConvention.t;
  getOwnershipKind : ValueOwnershipKind.t;
}.

Definition Arg_hasConvention (A : SILFunctionArgument)
    (P : SILArgumentConvention.t) : bool :=
  bool_decide (getArgumentConvention A = P).

(** Modelled from the spec: [hasSomeReleasesForArgument] is a member of the
    release matcher, which is declared outside this header.  It holds when
    the matcher found at least one release of the argument, but not all of
    them: the data model's invariant on the explode decision reads "at least
    one matched release even if not all releases were found", and the
    comment at the call site in [shouldExplode] reads "we can not find all
    the releases for it ... maybe we can find some of the releases". *)
Definition hasSomeReleasesForArgument
    (ERM : ConsumedArgToEpilogueReleaseMatcher) (A : SILFunctionArgument) : bool :=
  let M := matchedReleasesFor ERM (getIndex A) in
  negb (bool_decide (releaseSites M = [])) && negb (isComplete M).

Record ArgumentDescriptor := {
  Arg : SILFunctionArgument;
  PInfo : option SILParameterInfo;
  Index : N;
  Decl : option ValueDecl;
  IsEntirelyDead : bool;
  WasErased : bool;
  Explode : bool;
  OwnedToGuaranteed : bool;
  IsIndirectResult : bool;
  CalleeRelease : ReleaseList;
  CalleeReleaseInThrowBlock : ReleaseList;
  ProjTree : ProjectionTree;
}.

(** [ArgumentDescriptor(SILFunctionArgument *A)]: the member initialisers,
    then the constructor body, which stores the parameter info again when
    the argument is not an indirect result. *)
Definition mkArgumentDescriptor (A : SILFunctionArgument) : ArgumentDescriptor :=
  let D := {| Arg := A;
              PInfo := Some (getKnownParameterInfo A);
              Index := getIndex A;
              Decl := getDecl A;
              IsEntirelyDead := false;
              WasErased := false;
              Explode := false;
              OwnedToGuaranteed := false;
              IsIndirectResult := isIndirectResult A;
              CalleeRelease := [];
              CalleeReleaseInThrowBlock := [];
              ProjTree := newProjectionTree (getModule A) (getType A) |} in
  if negb (isIndirectResult A)
  then {| Arg := Arg D;
          PInfo := Some (getKnownParameterInfo (Arg D));
          Index := Index D; Decl := Decl D;
          IsEntirelyDead := IsEntirelyDead D; WasErased := WasErased D;
          Explode := Explode D; OwnedToGuaranteed := OwnedToGuaranteed D;
          IsIndirectResult := IsIndirectResult D;
          CalleeRelease := CalleeRelease D;
          CalleeReleaseInThrowBlock := CalleeReleaseInThrowBlock D;
          ProjTree := ProjTree D |}
  else D.

Definition hasConvention (AD : ArgumentDescriptor)
    (P : SILArgumentConvention.t) : bool :=
  Arg_hasConvention (Arg AD) P.

Definition canOptimizeLiveArg (AD : ArgumentDescriptor) : bool :=
  if isObject (getType (Arg AD)) then true
  else if hasArchetype (getType (Arg AD)) &&
          isAddress (getType (Arg AD)) &&
          (Arg_hasConvention (Arg AD) SILArgumentConvention.Indirect_In ||
           Arg_hasConvention (Arg AD) SILArgumentConvention.Indirect_In_Guaranteed)
  then true
  else false.

Definition shouldExplode (AD : ArgumentDescriptor)
    (ERM : ConsumedArgToEpilogueReleaseMatcher) : bool :=
  if negb (canOptimizeLiveArg AD) then false
  else if isSingleton (ProjTree AD) then false
  else
    let Ty := getObjectType (getType (Arg AD)) in
    if negb (shouldExpand (getModule (Arg AD)) Ty) then false
    else if hasConvention AD SILArgumentConvention.Direct_Owned &&
            hasSomeReleasesForArgument ERM (Arg AD)
    then true
    else
      let explosionSize := getLiveLeafCount (ProjTree AD) in
      (1 <=? explosionSize)%N && (explosionSize <=? 3)%N.

Definition getTransformedOwnershipKind (AD : ArgumentDescriptor)
    (SubTy : SILType) : option ValueOwnershipKind.t :=
  if IsEntirelyDead AD then None
  else if isTrivial SubTy (getModule (Arg AD))
  then Some ValueOwnershipKind.Trivial
  else if OwnedToGuaranteed AD
  then Some ValueOwnershipKind.Guaranteed
  else Some (getOwnershipKind (Arg AD)).

(** The eligibility policy as the design text words its first step: a
    directly-passed value type, or an indirectly-passed value of a type with
    no generic/opaque sub-parts, with generic indirect arguments under the
    two pass-ownership-in conventions eligible as well. *)
Definition canOptimizeLiveArg_as_worded (AD : ArgumentDescriptor) : bool :=
  isObject (getType (Arg AD)) ||
  (isAddress (getType (Arg AD)) && negb (hasArchetype (getType (Arg AD)))) ||
  (isAddress (getType (Arg AD)) && hasArchetype (getType (Arg AD)) &&
   (Arg_hasConvention (Arg AD) SILArgumentConvention.Indirect_In ||
    Arg_hasConvention (Arg AD) SILArgumentConvention.Indirect_In_Guaranteed)).

(** The argument passed the steps of [shouldExplode] that precede the owned
    override: it can be optimised, its tree is no singleton, and the
    expansion oracle approves its type. *)
Definition passesEligibility (AD : ArgumentDescriptor) : Prop :=
  canOptimizeLiveArg AD = true /\
  isSingleton (ProjTree AD) = false /\
  shouldExpand (getModule (Arg AD)) (getObjectType (getType (Arg AD))) = true.

(** The releases the matcher found for the descriptor's argument. *)
Definition foundReleases (AD : ArgumentDescriptor)
    (ERM : ConsumedArgToEpilogueReleaseMatcher) : MatchedReleases :=
  matchedReleasesFor ERM (getIndex (Arg AD)).

End ArgumentDescriptors.

Arguments getModule {SILModule} _.
Arguments getType {SILModule} _.
Arguments getIndex {SILModule} _.
Arguments getDecl {SILModule} _.
Arguments getKnownParameterInfo {SILModule} _.
Arguments isIndirectResult {SILModule} _.
Arguments getArgumentConvention {SILModule} _.
Arguments getOwnershipKind {SILModule} _.
Arguments Arg_hasConvention {SILModule} A P.
Arguments hasSomeReleasesForArgument {SILModule} ERM A.
Arguments Arg {SILModule} _.
Arguments PInfo {SILModule} _.
Arguments Index {SILModule} _.
Arguments Decl {SILModule} _.
Arguments IsEntirelyDead {SILModule} _.
Arguments WasErased {SILModule} _.
Arguments Explode {SILModule} _.
Arguments OwnedToGuaranteed {SILModule} _.
Arguments IsIndirectResult {SILModule} _.
Arguments CalleeRelease {SILModule} _.
Arguments CalleeReleaseInThrowBlock {SILModule} _.
Arguments ProjTree {SILModule} _.
Arguments mkArgumentDescriptor {SILModule} newProjectionTree A.
Arguments hasConvention {SILModule} AD P.
Arguments canOptimizeLiveArg {SILModule} AD.
Arguments canOptimizeLiveArg_as_worded {SILModule} AD.
Arguments shouldExplode {SILModule} shouldExpand AD ERM.
Arguments getTransformedOwnershipKind {SILModule} isTrivial AD SubTy.
Arguments passesEligibility {SILModule} shouldExpand AD.
Arguments foundReleases {SILModule} AD ERM.

(** ** Result descriptors *)

(** Modelled from the spec: the enumeration ResultConvention is declared
    outside this header; its constructors follow the data model (Owned,
    Autoreleased, Unowned, Owned-Unretained). *)
Module ResultConvention.
Inductive t := Owned | Autoreleased | Unowned | UnownedInnerPointer.

#[global] Instance eq_dec : EqDecision t.
Proof. solve_decision. Defined.
End ResultConvention.

Record SILResultInfo := {
  ResultType : SILType;
  getConvention : ResultConvention.t;
}.

Module ResultDescriptor.
Record t := {
  ResultInfo : SILResultInfo;
  CalleeRetain : list SILInstruction;
  OwnedToGuaranteed : bool;
}.

(** [ResultDescriptor(SILResultInfo RI)]. *)
Definition make (RI : SILResultInfo) : t :=
  {| ResultInfo := RI; CalleeRetain := []; OwnedToGuaranteed := false |}.

Definition hasConvention (RD : t) (R : ResultConvention.t) : bool :=
  bool_decide (getConvention (ResultInfo RD) = R).
End ResultDescriptor.

(** ** The transform and its driver *)

(** Modelled from the spec: SILFunction and the module's function table are
    declared outside this header.  A function has a signature and a body;
    the table maps a symbol name to its function, and the transform refers
    to functions by name (the header holds pointers into the table). *)
Record SILFunction := {
  FnParameters : list SILParameterInfo;
  FnResults : list SILResultInfo;
  FnBody : list SILInstruction;
}.

Section FunctionSignatureTransform.

Variable SILModule : Type.

(** Handles of the two analyses the transform carries. *)
Variable RCIdentityAnalysis : Type.
Variable EpilogueARCAnalysis : Type.

(** [AIM], [ArgumentDescList] and [ResultDescList] are references to storage
    of the caller; the state below threads their current contents. *)
Record FunctionSignatureTransformDescriptor := {
  OriginalFunction : string;
  OptimizedFunction : option string;
  AIM : gmap Z Z;
  shouldModifySelfArgument : bool;
  ArgumentDescList : list (ArgumentDescriptor SILModule);
  ResultDescList : list ResultDescriptor.t;
}.

Record FunctionSignatureTransform := {
  TransformDescriptor : FunctionSignatureTransformDescriptor;
  RCIA : RCIdentityAnalysis;
  EA : EpilogueARCAnalysis;
}.

(** The constructor: [TransformDescriptor{F, nullptr, AIM, false, ADL, RDL}]. *)
Definition mkFunctionSignatureTransform (F : string)
    (RCIA0 : RCIdentityAnalysis) (EA0 : EpilogueARCAnalysis)
    (AIM0 : gmap Z Z) (ADL : list (ArgumentDescriptor SILModule))
    (RDL : list ResultDescriptor.t) : FunctionSignatureTransform :=
  {| TransformDescriptor :=
       {| OriginalFunction := F; OptimizedFunction := None; AIM := AIM0;
          shouldModifySelfArgument := false;
          ArgumentDescList := ADL; ResultDescList := RDL |};
     RCIA := RCIA0; EA := EA0 |}.

(** [OptimizedFunction.getPtrOrNull()]. *)
Definition getOptimizedFunction (T : FunctionSignatureTransform) : option string :=
  OptimizedFunction (TransformDescriptor T).

(** The state the driver acts on: the module's function table and the
    transform. *)
Record PassState := {
  Functions : gmap string SILFunction;
  Transform : FunctionSignatureTransform;
}.

(** The sub-analyses are declared in the header and defined elsewhere; each
    reports whether it found an opportunity and marks descriptors.  They
    read the function table and the transform. *)
Variable DeadArgumentAnalyzeParameters :
  PassState -> bool * list (ArgumentDescriptor SILModule).
Variable OwnedToGuaranteedAnalyzeParameters :
  PassState -> bool * list (ArgumentDescriptor SILModule).
Variable OwnedToGuaranteedAnalyzeResults :
  PassState -> bool * list ResultDescriptor.t.
Variable ArgumentExplosionAnalyzeParameters :
  PassState -> bool * list (ArgumentDescriptor SILModule).

(** Services of the synthesis step: the mangled name of the specialised
    function, the specialised function itself, the thunk that replaces the
    body of the original, and the old-to-new argument index map. *)
Variable createOptimizedSILFunctionName :
  FunctionSignatureTransformDescriptor -> string.
Variable specializedFunction :
  FunctionSignatureTransformDescriptor -> gmap string SILFunction -> SILFunction.
Variable thunkBody :
  string -> FunctionSignatureTransformDescriptor -> SILFunction -> list SILInstruction.
Variable computeArgumentIndexMap :
  FunctionSignatureTransformDescriptor -> gmap Z Z.

(** The policy flag of the orchestrating caller: whether a later stage
    rewrites indirect references when the function has no caller. *)
Variable indirectReferencesRewritten : bool.

Definition withArgumentDescList (S : PassState)
    (ADL : list (ArgumentDescriptor SILModule)) : PassState :=
  let TD := TransformDescriptor (Transform S) in
  {| Functions := Functions S;
     Transform :=
       {| TransformDescriptor :=
            {| OriginalFunction := OriginalFunction TD;
               OptimizedFunction := OptimizedFunction TD;
               AIM := AIM TD;
               shouldModifySelfArgument := shouldModifySelfArgument TD;
               ArgumentDescList := ADL;
               ResultDescList := ResultDescList TD |};
          RCIA := RCIA (Transform S); EA := EA (Transform S) |} |}.

Definition withResultDescList (S : PassState)
    (RDL : list ResultDescriptor.t) : PassState :=
  let TD := TransformDescriptor (Transform S) in
  {| Functions := Functions S;
     Transform :=
       {| TransformDescriptor :=
            {| OriginalFunction := OriginalFunction TD;
               OptimizedFunction := OptimizedFunction TD;
               AIM := AIM TD;
               shouldModifySelfArgument := shouldModifySelfArgument TD;
               ArgumentDescList := ArgumentDescList TD;
               ResultDescList := RDL |};
          RCIA := RCIA (Transform S); EA := EA (Transform S) |} |}.

(** Modelled from the spec: [OwnedToGuaranteedAnalyze] is defined outside
    this header.  Ownership narrowing analyses the parameters, then the
    results, and reports an opportunity when either does. *)
Definition OwnedToGuaranteedAnalyze (S : PassState) : bool * PassState :=
  let '(Params, ADL) := OwnedToGuaranteedAnalyzeParameters S in
  let S1 := withArgumentDescList S ADL in
  let '(Result, RDL) := OwnedToGuaranteedAnalyzeResults S1 in
  (Params || Result, withResultDescList S1 RDL).

(** Modelled from the spec: [createFunctionSignatureOptimizedFunction] is
    defined outside this header.  Synthesis adds the specialised function to
    the table under its mangled name, turns the original into a thunk that
    forwards to it (the original keeps its signature), and records the new
    function and the index map in the transform. *)
Definition createFunctionSignatureOptimizedFunction (S : PassState) : PassState :=
  let TD := TransformDescriptor (Transform S) in
  let NewFName := createOptimizedSILFunctionName TD in
  let toThunk F :=
    {| FnParameters := FnParameters F; FnResults := FnResults F;
       FnBody := thunkBody NewFName TD F |} in
  {| Functions :=
       <[NewFName := specializedFunction TD (Functions S)]>
         (alter toThunk (OriginalFunction TD) (Functions S));
     Transform :=
       {| TransformDescriptor :=
            {| OriginalFunction := OriginalFunction TD;
               OptimizedFunction := Some NewFName;
               AIM := computeArgumentIndexMap TD;
               shouldModifySelfArgument := shouldModifySelfArgument TD;
               ArgumentDescList := ArgumentDescList TD;
               ResultDescList := ResultDescList TD |};
          RCIA := RCIA (Transform S); EA := EA (Transform S) |} |}.

(** Modelled from the spec: [run] is declared in the header and defined
    outside it.  It executes, in this order, the dead-argument analysis, the
    ownership-narrowing analysis and the explosion analysis over the
    descriptor lists; when none of them marked a descriptor it reports no
    opportunity and mutates nothing, otherwise it
    synthesises the specialised function.  Without a caller the transforms
    are attempted only under the policy flag of the orchestrating caller. *)
Definition run (hasCaller : bool) (S : PassState) : bool * PassState :=
  if negb (hasCaller || indirectReferencesRewritten) then (false, S)
  else
    let '(Dead, ADL1) := DeadArgumentAnalyzeParameters S in
    let S1 := withArgumentDescList S ADL1 in
    let '(O2G, S2) := OwnedToGuaranteedAnalyze S1 in
    let '(Exploded, ADL3) := ArgumentExplosionAnalyzeParameters S2 in
    let S3 := withArgumentDescList S2 ADL3 in
    if Dead || O2G || Exploded
    then (true, createFunctionSignatureOptimizedFunction S3)
    else (false, S3).

(** What the analyses leave alone: the function table and, in the
    transform, everything but the descriptor lists. *)
Definition sameIR (S S' : PassState) : Prop :=
  Functions S' = Functions S /\
  OriginalFunction (TransformDescriptor (Transform S')) =
    OriginalFunction (TransformDescriptor (Transform S)) /\
  OptimizedFunction (TransformDescriptor (Transform S')) =
    OptimizedFunction (TransformDescriptor (Transform S)) /\
  AIM (TransformDescriptor (Transform S')) =
    AIM (TransformDescriptor (Transform S)).

(** The state that the three analyses of [run] leave behind, on which
    synthesis runs when an opportunity was found. *)
Definition analysed (S : PassState) : PassState :=
  let S1 := withArgumentDescList S (DeadArgumentAnalyzeParameters S).2 in
  let S2 := (OwnedToGuaranteedAnalyze S1).2 in
  withArgumentDescList S2 (ArgumentExplosionAnalyzeParameters S2).2.

End FunctionSignatureTransform.

Arguments OriginalFunction {SILModule} _.
Arguments OptimizedFunction {SILModule} _.
Arguments AIM {SILModule} _.
Arguments shouldModifySelfArgument {SILModule} _.
Arguments ArgumentDescList {SILModule} _.
Arguments ResultDescList {SILModule} _.
Arguments TransformDescriptor {SILModule RCIdentityAnalysis EpilogueARCAnalysis} _.
Arguments RCIA {SILModule RCIdentityAnalysis EpilogueARCAnalysis} _.
Arguments EA {SILModule RCIdentityAnalysis EpilogueARCAnalysis} _.
Arguments mkFunctionSignatureTransform
  {SILModule RCIdentityAnalysis EpilogueARCAnalysis} F RCIA0 EA0 AIM0 ADL RDL.
Arguments getOptimizedFunction
  {SILModule RCIdentityAnalysis EpilogueARCAnalysis} T.
Arguments Functions {SILModule RCIdentityAnalysis EpilogueARCAnalysis} _.
Arguments Transform {SILModule RCIdentityAnalysis EpilogueARCAnalysis} _.
Arguments withArgumentDescList
  {SILModule RCIdentityAnalysis EpilogueARCAnalysis} S ADL.
Arguments withResultDescList
  {SILModule RCIdentityAnalysis EpilogueARCAnalysis} S RDL.
Arguments OwnedToGuaranteedAnalyze
  {SILModule RCIdentityAnalysis EpilogueARCAnalysis} _ _ S.
Arguments createFunctionSignatureOptimizedFunction
  {SILModule RCIdentityAnalysis EpilogueARCAnalysis} _ _ _ _ S.
Arguments run
  {SILModule RCIdentityAnalysis EpilogueARCAnalysis} _ _ _ _ _ _ _ _ _ hasCaller S.
Arguments sameIR {SILModule RCIdentityAnalysis EpilogueARCAnalysis} S S'.
Arguments analysed
  {SILModule RCIdentityAnalysis EpilogueARCAnalysis} _ _ _ _ S.

(** ** The power-of-two tests of the isPower(of:) benchmark *)

Module IsPower.
Local Open Scope Z_scope.

Section Words.

(** [UInt.bitWidth], the width of a word of the platform. *)
Variable bitWidth : Z.

(** A value of a [BinaryInteger] type, given by the signedness of its type
    and by its [words]: the two's complement representation, least
    significant word first, each word a [UInt]. *)
Record BinaryInteger := {
  isSigned : bool;
  words : list Z;
}.

Definition isUInt (w : Z) : Prop := 0 <= w < 2 ^ bitWidth.

Definition wellFormed (x : BinaryInteger) : Prop := Forall isUInt (words x).

(** The unsigned number that a list of words spells. *)
Fixpoint magnitudeOf (ws : list Z) : Z :=
  match ws with
  | [] => 0
  | w :: rest => w + 2 ^ bitWidth * magnitudeOf rest
  end.

(** [Int(bitPattern: w)]. *)
Definition Int_bitPattern (w : Z) : Z :=
  if w <? 2 ^ (bitWidth - 1) then w else w - 2 ^ bitWidth.

(** The integer a value stands for: a signed value whose most significant
    word has its top bit set is negative. *)
Definition toZ (x : BinaryInteger) : Z :=
  let u := magnitudeOf (words x) in
  if isSigned x && (Int_bitPattern (List.last (words x) 0) <? 0)
  then u - 2 ^ (bitWidth * Z.of_nat (length (words x)))
  else u.

(** Subtraction on [UInt] traps on overflow. *)
Definition UInt_sub (a b : Z) : option Z :=
  if a <? b then None else Some (a - b).

(** [self > 0 && self & (self - 1) == 0]; the subtraction is reached only
    for a positive [self], where no integer type overflows. *)
Definition _isPowerOfTwo_classic (x : BinaryInteger) : bool :=
  let self := toZ x in
  if 0 <? self then Z.land self (self - 1) =? 0 else false.

(** The loop of [_isPowerOfTwo_words] over the remaining words, with the
    current value of [foundPowerOfTwoWord]. *)
Fixpoint scanWords (ws : list Z) (foundPowerOfTwoWord : bool) : option bool :=
  match ws with
  | [] => Some foundPowerOfTwoWord
  | word :: rest =>
      if word =? 0 then scanWords rest foundPowerOfTwoWord
      else if foundPowerOfTwoWord then Some false
      else
        pred ← UInt_sub word 1;
        if negb (Z.land word pred =? 0) then Some false
        else scanWords rest true
  end.

(** [None] stands for a runtime trap (the failed precondition or an
    overflow). *)
Definition _isPowerOfTwo_words (x : BinaryInteger) : option bool :=
  let words := words x in
  if bool_decide (words = []) then None
  else if (length words =? 1)%nat then
    match words with
    | word :: _ =>
        if 0 <? word
        then pred ← UInt_sub word 1; Some (Z.land word pred =? 0)
        else Some false
    | [] => None
    end
  else if isSigned x && (Int_bitPattern (List.last words 0) <? 0)
  then Some false
  else scanWords words false.

End Words.

(** A positive power of two. *)
Definition isPowerOfTwo (v : Z) : Prop := exists k, 0 <= k /\ v = 2 ^ k.

(** A power of [base] with a natural exponent ([base ^ 0] is 1, also for
    [base] 0). *)
Definition isPowerOf (base self : Z) : Prop := exists n, 0 <= n /\ self = base ^ n.

(** *** The tests on the value *)

Section Values.

(** [UInt.bitWidth], as in the section above. *)
Variable bitWidth : Z.

(** The only value on which the words test errs: a signed value whose
    single word has only its top bit set. *)
Definition isSignedMin (x : BinaryInteger) : Prop :=
  isSigned x = true /\ words x = [2 ^ (bitWidth - 1)].

(** The members of [BinaryInteger] that the remaining functions use, on the
    integer a value stands for.  [selfBitWidth] is [self.bitWidth]. *)

Fixpoint Pos_ctz (p : positive) : Z :=
  match p with
  | xO q => Z.succ (Pos_ctz q)
  | _ => 0
  end.

(** [self.trailingZeroBitCount]: the trailing zeros of the two's complement
    representation; for zero it equals [self.bitWidth]. *)
Definition trailingZeroBitCount (selfBitWidth self : Z) : Z :=
  match self with
  | 0 => selfBitWidth
  | Z.pos p | Z.neg p => Pos_ctz p
  end.

Fixpoint Pos_popcount (p : positive) : Z :=
  match p with
  | xH => 1
  | xO q => Pos_popcount q
  | xI q => Z.succ (Pos_popcount q)
  end.

Definition Z_popcount (z : Z) : Z :=
  match z with
  | Z.pos p => Pos_popcount p
  | _ => 0
  end.

(** [self.nonzeroBitCount] of a fixed-width integer: the ones of the two's
    complement representation in [selfBitWidth] bits. *)
Definition nonzeroBitCount (selfBitWidth self : Z) : Z :=
  match self with
  | Z.neg p => selfBitWidth - Z_popcount (Z.pred (Z.pos p))
  | _ => Z_popcount self
  end.

Definition magnitude (self : Z) : Z := Z.abs self.

(** [self.isMultiple(of: other)]: nothing but zero is a multiple of zero. *)
Definition isMultiple (self other : Z) : bool :=
  if other =? 0 then self =? 0 else Z.rem self other =? 0.

(** [self._lowWord]: the least significant word of the two's complement
    representation. *)
Definition _lowWord (self : Z) : Z := self mod 2 ^ bitWidth.

(** An [Int] result keeps the low [bitWidth] bits, read as signed. *)
Definition Int_truncatingIfNeeded (z : Z) : Z :=
  Int_bitPattern bitWidth (z mod 2 ^ bitWidth).

(** [(self > 0) && (self == (1 as Self) << self.trailingZeroBitCount)]; for
    a positive [self] the shifted one is at most [self], so the shift loses
    no bit (proved below). *)
Definition _isPowerOfTwo_cttz (selfBitWidth self : Z) : bool :=
  if 0 <? self
  then self =? Z.shiftl 1 (trailingZeroBitCount selfBitWidth self)
  else false.

(** [self > 0 && self.nonzeroBitCount == 1]. *)
Definition _isPowerOfTwo_ctpop (selfBitWidth self : Z) : bool :=
  if 0 <? self then nonzeroBitCount selfBitWidth self =? 1 else false.

(** [while x.magnitude < bound.magnitude { x *= base }], run for at most
    [fuel] rounds; [None] when the rounds do not suffice. *)
Fixpoint slowLoop (fuel : nat) (base bound x : Z) : option Z :=
  if magnitude x <? magnitude bound then
    match fuel with
    | O => None
    | S fuel' => slowLoop fuel' base bound (x * base)
    end
  else Some x.

(** [_slowIsPower(of:)].  The magnitude of [x] at least doubles in every
    round, so the loop is given one round more than the binary logarithm of
    [bound.magnitude]; the magnitude of [x] stays strictly below that of
    [self], so the multiplication does not overflow (both proved below). *)
Definition _slowIsPower (self base : Z) : option bool :=
  if self =? 1 then Some true
  else if magnitude base <=? 1 then Some (self =? base)
  else if negb (isMultiple self base) then Some false
  else
    let bound := Z.quot self base in
    x ← slowLoop (S (Z.to_nat (Z.log2 (magnitude bound)))) base bound 1;
    Some (x =? bound).

(** The default case of the switch in [_isPowerOfTen]. *)
Definition _isPowerOfTen_default (selfBitWidth self exponent : Z) : option bool :=
  if selfBitWidth <=? 64 then Some false
  else if negb (Z.land (_lowWord (Z.shiftr self exponent)) 15 =?
                Z.land (Z.lor (Int_truncatingIfNeeded (Z.shiftl exponent 2)) 1) 15)
  then Some false
  else _slowIsPower self 10.

Definition _isPowerOfTen (selfBitWidth self : Z) : option bool :=
  let exponent := trailingZeroBitCount selfBitWidth self in
  match exponent with
  | 0 => Some (self =? 1)
  | 1 => Some (self =? 10)
  | 2 => Some (self =? 100)
  | 3 => Some (self =? 1000)
  | 4 => Some (self =? 10000)
  | 5 => Some (self =? 100000)
  | 6 => Some (self =? 1000000)
  | 7 => Some (self =? 10000000)
  | 8 => Some (self =? 100000000)
  | 9 => Some (self =? 1000000000)
  | 10 => Some (self =? 10000000000)
  | 11 => Some (self =? 100000000000)
  | 12 => Some (self =? 1000000000000)
  | 13 => Some (self =? 10000000000000)
  | 14 => Some (self =? 100000000000000)
  | 15 => Some (self =? 1000000000000000)
  | 16 => Some (self =? 10000000000000000)
  | 17 => Some (self =? 100000000000000000)
  | 18 => Some (self =? 1000000000000000000)
  | 19 => Some (self =? 10000000000000000000)
  | _ => _isPowerOfTen_default selfBitWidth self exponent
  end.

(** [_isPowerOf(powerOfTwo:)]; the failed precondition is a trap. *)
Definition _isPowerOf_powerOfTwo (selfBitWidth baseBitWidth : Z)
    (self base : BinaryInteger) : option bool :=
  pre ← _isPowerOfTwo_words bitWidth base;
  if negb pre then None
  else
    ok ← _isPowerOfTwo_words bitWidth self;
    if negb ok then Some false
    else Some (isMultiple (trailingZeroBitCount selfBitWidth (toZ bitWidth self))
                          (trailingZeroBitCount baseBitWidth (toZ bitWidth base))).

(** [isPower(of:)]. *)
Definition isPower (selfBitWidth baseBitWidth : Z)
    (self base : BinaryInteger) : option bool :=
  if toZ bitWidth base =? 2 then _isPowerOfTwo_words bitWidth self
  else if toZ bitWidth base =? 10
  then _isPowerOfTen selfBitWidth (toZ bitWidth self)
  else
    baseIsPowerOfTwo ← _isPowerOfTwo_words bitWidth base;
    if baseIsPowerOfTwo : bool
    then _isPowerOf_powerOfTwo selfBitWidth baseBitWidth self base
    else _slowIsPower (toZ bitWidth self) (toZ bitWidth base).

(** The prototype [_BigInt], as [_isPowerOfTwo_BigInt] uses it: the words
    of the magnitude, least significant first, and the sign.  The two
    preconditions of the function state its invariant: a nonzero value has a
    word, and [_data] has no trailing zero elements; so zero is the value
    without words. *)
Record _BigInt := {
  _data : list Z;
  isNegative : bool;
}.

Definition isZero (x : _BigInt) : bool := bool_decide (_data x = []).

Definition BigInt_toZ (x : _BigInt) : Z :=
  if isNegative x then - magnitudeOf bitWidth (_data x) else magnitudeOf bitWidth (_data x).

(** [_isPowerOfTwo_BigInt].  The range [0..<(_data.count - 1)] and the two
    preconditions trap when they fail. *)
Definition _isPowerOfTwo_BigInt (x : _BigInt) : option bool :=
  if negb (negb (isZero x) && negb (isNegative x)) then Some false
  else if (Z.of_nat (length (_data x)) - 1 <? 0) then None
  else if existsb (fun w => negb (w =? 0))
                  (take (length (_data x) - 1) (_data x))
  then Some false
  else if bool_decide (_data x = []) then None
  else
    let w := List.last (_data x) 0 in
    if w =? 0 then None
    else pred ← UInt_sub w 1; Some (Z.land w pred =? 0).

End Values.

(** The older benchmark (performance.swift): the same tests, dispatched on
    the value alone. *)
Module Performance.

(** [_isPowerOfTwo]: [self > 0 && self & (self - 1) == 0]. *)
Definition _isPowerOfTwo (self : Z) : bool :=
  if 0 <? self then Z.land self (self - 1) =? 0 else false.

(** [_isPower(of:)]. *)
Definition _isPower (self base : Z) : option bool :=
  if self =? 1 then Some true
  else if magnitude base <=? 1 then Some (self =? base)
  else if negb (isMultiple self base) then Some false
  else
    let bound := Z.quot self base in
    x ← slowLoop (S (Z.to_nat (Z.log2 (magnitude bound)))) base bound 1;
    Some (x =? bound).

Definition _isPowerOfTen_default (bitWidth selfBitWidth self exponent : Z) :
    option bool :=
  if selfBitWidth <=? 64 then Some false
  else if negb (Z.land (_lowWord bitWidth (Z.shiftr self exponent)) 15 =?
                Z.land (Z.lor (Int_truncatingIfNeeded bitWidth
                                 (Z.shiftl exponent 2)) 1) 15)
  then Some false
  else _isPower self 10.

Definition _isPowerOfTen (bitWidth selfBitWidth self : Z) : option bool :=
  let exponent := trailingZeroBitCount selfBitWidth self in
  match exponent with
  | 0 => Some (self =? 1)
  | 1 => Some (self =? 10)
  | 2 => Some (self =? 100)
  | 3 => Some (self =? 1000)
  | 4 => Some (self =? 10000)
  | 5 => Some (self =? 100000)
  | 6 => Some (self =? 1000000)
  | 7 => Some (self =? 10000000)
  | 8 => Some (self =? 100000000)
  | 9 => Some (self =? 1000000000)
  | 10 => Some (self =? 10000000000)
  | 11 => Some (self =? 100000000000)
  | 12 => Some (self =? 1000000000000)
  | 13 => Some (self =? 10000000000000)
  | 14 => Some (self =? 100000000000000)
  | 15 => Some (self =? 1000000000000000)
  | 16 => Some (self =? 10000000000000000)
  | 17 => Some (self =? 100000000000000000)
  | 18 => Some (self =? 1000000000000000000)
  | 19 => Some (self =? 10000000000000000000)
  | _ => _isPowerOfTen_default bitWidth selfBitWidth self exponent
  end.

(** [isPower(of:)]. *)
Definition isPower (bitWidth selfBitWidth self base : Z) : option bool :=
  if base =? 2 then Some (_isPowerOfTwo self)
  else if base =? 10 then _isPowerOfTen bitWidth selfBitWidth self
  else _isPower self base.

End Performance.

(** [Int64.min] on a 64-bit platform: one word, only the top bit set. *)
Definition Int64_min : BinaryInteger :=
  {| isSigned := true; words := [2 ^ 63] |}.

End IsPower.

(** ** Concrete arguments *)

Module Examples.

Definition IntTy : SILType :=
  {| TypeName := "Int"; Category := Object; ContainsArchetype := false |}.
Definition StructTy : SILType :=
  {| TypeName := "S"; Category := Object; ContainsArchetype := false |}.
(** The address of a struct with no generic part, as an [@in] or [@inout]
    parameter has it. *)
Definition StructAddrTy : SILType :=
  {| TypeName := "S"; Category := Address; ContainsArchetype := false |}.

Definition leaf (live : bool) : ProjectionTree := PTNode IntTy live [].
(** A struct of [n] live scalar fields. *)
Definition fields (n : nat) : ProjectionTree :=
  PTNode StructTy false (replicate n (leaf true)).
(** Three single-field structs around one scalar. *)
Definition nested : ProjectionTree := wrap StructTy 3 (leaf true).

Definition expandAll : unit -> SILType -> bool := fun _ _ => true.
Definition expandNone : unit -> SILType -> bool := fun _ _ => false.
Definition trivialInt : SILType -> unit -> bool :=
  fun T _ => bool_decide (TypeName T = "Int").
Definition rootOnly : unit -> SILType -> ProjectionTree :=
  fun _ T => PTNode T false [].

Definition argument (T : SILType) (C : SILArgumentConvention.t)
    (K : ValueOwnershipKind.t) : SILFunctionArgument unit :=
  {| getModule := tt; getType := T; getIndex := 0%N; getDecl := Some "x";
     getKnownParameterInfo := {| ParamType := T; ParamConvention := C |};
     isIndirectResult := false; getArgumentConvention := C;
     getOwnershipKind := K |}.

Definition descriptor (A : SILFunctionArgument unit) (T : ProjectionTree)
    (dead o2g : bool) : ArgumentDescriptor unit :=
  {| Arg := A; PInfo := Some (getKnownParameterInfo A); Index := getIndex A;
     Decl := getDecl A; IsEntirelyDead := dead; WasErased := false;
     Explode := false; OwnedToGuaranteed := o2g;
     IsIndirectResult := isIndirectResult A; CalleeRelease := [];
     CalleeReleaseInThrowBlock := []; ProjTree := T |}.

Definition ownedArg : SILFunctionArgument unit :=
  argument StructTy SILArgumentConvention.Direct_Owned ValueOwnershipKind.Owned.
Definition guaranteedArg : SILFunctionArgument unit :=
  argument StructTy SILArgumentConvention.Direct_Guaranteed
           ValueOwnershipKind.Guaranteed.
Definition inArg : SILFunctionArgument unit :=
  argument StructAddrTy SILArgumentConvention.Indirect_In ValueOwnershipKind.Owned.
(** The address of a value of generic type, passed [@in]. *)
Definition GenericAddrTy : SILType :=
  {| TypeName := "T"; Category := Address; ContainsArchetype := true |}.
Definition genericInArg : SILFunctionArgument unit :=
  argument GenericAddrTy SILArgumentConvention.Indirect_In
           ValueOwnershipKind.Owned.

(** The matcher's answers for argument 0: nothing found, one release found
    out of several, and every release found. *)
Definition matcher (R : ReleaseList) (all : bool) :
    ConsumedArgToEpilogueReleaseMatcher :=
  {| ArgInstMap := {[ 0%N := {| releaseSites := R; isComplete := all |} ]} |}.
Definition noneFound := matcher [] false.
Definition someFound := matcher [7%positive] false.
Definition allFound := matcher [7%positive] true.

(** A module with one function [f], a fresh transform for it, and simple
    instances of the services of [run]. *)
Definition State0 : Type := PassState unit unit unit.

Definition functionF : SILFunction :=
  {| FnParameters :=
       [{| ParamType := StructTy;
           ParamConvention := SILArgumentConvention.Direct_Guaranteed |}];
     FnResults := []; FnBody := [2%positive; 3%positive] |}.

Definition initialState (T : ProjectionTree) : State0 :=
  {| Functions := {[ "f" := functionF ]};
     Transform :=
       mkFunctionSignatureTransform "f" tt tt ∅
         [descriptor guaranteedArg T false false] [] |}.

Definition keepArguments (S : State0) : bool * list (ArgumentDescriptor unit) :=
  (false, ArgumentDescList (TransformDescriptor (Transform S))).
Definition keepResults (S : State0) : bool * list ResultDescriptor.t :=
  (false, ResultDescList (TransformDescriptor (Transform S))).

Definition withExplode (AD : ArgumentDescriptor unit) (b : bool) :
    ArgumentDescriptor unit :=
  {| Arg := Arg AD; PInfo := PInfo AD; Index := Index AD; Decl := Decl AD;
     IsEntirelyDead := IsEntirelyDead AD; WasErased := WasErased AD;
     Explode := b; OwnedToGuaranteed := OwnedToGuaranteed AD;
     IsIndirectResult := IsIndirectResult AD;
     CalleeRelease := CalleeRelease AD;
     CalleeReleaseInThrowBlock := CalleeReleaseInThrowBlock AD;
     ProjTree := ProjTree AD |}.

(** An explosion analysis: every descriptor is marked as [shouldExplode]
    decides. *)
Definition explodeByPolicy (S : State0) : bool * list (ArgumentDescriptor unit) :=
  let ADL :=
    map (fun AD => withExplode AD (shouldExplode expandAll AD noneFound))
        (ArgumentDescList (TransformDescriptor (Transform S))) in
  (existsb Explode ADL, ADL).

Definition mangledName (TD : FunctionSignatureTransformDescriptor unit) : string :=
  OriginalFunction TD +:+ "Tf".
Definition cloneOriginal (TD : FunctionSignatureTransformDescriptor unit)
    (table : gmap string SILFunction) : SILFunction :=
  default functionF (table !! OriginalFunction TD).
Definition forwardingBody (NewF : string)
    (TD : FunctionSignatureTransformDescriptor unit) (F : SILFunction) :
    list SILInstruction := [1%positive].
Definition identityMap (TD : FunctionSignatureTransformDescriptor unit) :
    gmap Z Z := ∅.

Definition runExample (T : ProjectionTree) (hasCaller : bool) :
    bool * State0 :=
  run keepArguments keepArguments keepResults explodeByPolicy
      mangledName cloneOriginal forwardingBody identityMap false
      hasCaller (initialState T).

End Examples.

(** * Properties *)

(** ** Projection trees *)

Lemma isSingleton_wrap Ty n T : isSingleton (wrap Ty n T) = isSingleton T.
Proof. induction n as [|n IH]; simpl; auto. Qed.

Lemma isSingleton_leaf Ty live : isSingleton (PTNode Ty live []) = true.
Proof. reflexivity. Qed.

(** A singleton tree has one leaf, so at most one live leaf. *)
Lemma isSingleton_liveLeaves :
  forall T, isSingleton T = true -> (liveLeaves T <= 1)%nat.
Proof.
  fix IH 1. intros [Ty live [| Child [| Child' rest]]] H; simpl in *.
  - destruct live; lia.
  - specialize (IH Child H). lia.
  - discriminate.
Qed.

(** Single-field aggregates nested to any depth around a scalar form a
    singleton tree. *)
Lemma isSingleton_wrap_leaf Ty Ty' live n :
  isSingleton (wrap Ty n (PTNode Ty' live [])) = true.
Proof. by rewrite isSingleton_wrap. Qed.

(** ** The explosion decision *)

Section ShouldExplode.

Context {SILModule : Type}.
Variable shouldExpand : SILModule -> SILType -> bool.

Implicit Types (AD : ArgumentDescriptor SILModule)
               (ERM : ConsumedArgToEpilogueReleaseMatcher).

Lemma shouldExplode_eligible AD ERM :
  passesEligibility shouldExpand AD ->
  shouldExplode shouldExpand AD ERM =
  (hasConvention AD SILArgumentConvention.Direct_Owned &&
   hasSomeReleasesForArgument ERM (Arg AD)) ||
  ((1 <=? getLiveLeafCount (ProjTree AD))%N &&
   (getLiveLeafCount (ProjTree AD) <=? 3)%N).
Proof.
  intros (Hopt & Hsing & Hexp). unfold shouldExplode.
  rewrite Hopt, Hsing, Hexp. simpl.
  by destruct (_ && hasSomeReleasesForArgument _ _).
Qed.

Lemma shouldExplode_true_eligible AD ERM :
  shouldExplode shouldExpand AD ERM = true -> passesEligibility shouldExpand AD.
Proof.
  unfold shouldExplode, passesEligibility.
  destruct (canOptimizeLiveArg AD); [|done].
  destruct (isSingleton (ProjTree AD)); [done|].
  destruct (shouldExpand _ _); done.
Qed.

Lemma hasSomeReleasesForArgument_spec AD ERM :
  hasSomeReleasesForArgument ERM (Arg AD) = true <->
  releaseSites (foundReleases AD ERM) <> [] /\
  isComplete (foundReleases AD ERM) = false.
Proof.
  unfold hasSomeReleasesForArgument, foundReleases.
  rewrite andb_true_iff, !negb_true_iff, bool_decide_eq_false. done.
Qed.

Lemma leaf_range_spec (n : N) :
  (1 <=? n)%N && (n <=? 3)%N = true <-> (1 <= n <= 3)%N.
Proof. rewrite andb_true_iff, !N.leb_le. done. Qed.

(** C1: for an argument that passes the eligibility steps and to which the
    owned override does not apply, [shouldExplode] accepts exactly when the
    live-leaf count of the projection tree lies between 1 and 3. *)
Theorem shouldExplode_leaf_count_iff AD ERM :
  passesEligibility shouldExpand AD ->
  hasConvention AD SILArgumentConvention.Direct_Owned &&
    hasSomeReleasesForArgument ERM (Arg AD) = false ->
  shouldExplode shouldExpand AD ERM = true <->
  (1 <= getLiveLeafCount (ProjTree AD) <= 3)%N.
Proof.
  intros Helig Hno. rewrite (shouldExplode_eligible _ _ Helig), Hno.
  simpl. apply leaf_range_spec.
Qed.

(** C3: whenever [shouldExplode] accepts, the tree is no singleton and
    either its live-leaf count lies between 1 and 3 or the argument is owned
    and the matcher found at least one release for it; so a descriptor with a
    singleton tree, or with more than three live leaves and no owned argument
    with a matched release, is never accepted. *)
Theorem shouldExplode_true_inv AD ERM :
  shouldExplode shouldExpand AD ERM = true ->
  ((isSingleton (ProjTree AD) = false /\
    (1 <= getLiveLeafCount (ProjTree AD) <= 3)%N) \/
   (hasConvention AD SILArgumentConvention.Direct_Owned = true /\
    releaseSites (foundReleases AD ERM) <> [])) /\
  isSingleton (ProjTree AD) = false /\
  ((3 < getLiveLeafCount (ProjTree AD))%N ->
   hasConvention AD SILArgumentConvention.Direct_Owned = true /\
   releaseSites (foundReleases AD ERM) <> []).
Proof.
  intros H. pose proof (shouldExplode_true_eligible _ _ H) as Helig.
  rewrite (shouldExplode_eligible _ _ Helig) in H.
  destruct Helig as (_ & Hsing & _).
  apply orb_true_iff in H as [H | H].
  - apply andb_true_iff in H as [Hown Hsome].
    apply hasSomeReleasesForArgument_spec in Hsome as [Hsome _].
    split; [right; done |]. split; [done |]. done.
  - apply leaf_range_spec in H.
    split; [left; done |]. split; [done |]. lia.
Qed.

(** C4: an argument whose projection tree is a singleton is never exploded,
    whatever its convention, its matched releases and its live-leaf count. *)
Theorem shouldExplode_singleton AD ERM :
  isSingleton (ProjTree AD) = true ->
  shouldExplode shouldExpand AD ERM = false.
Proof.
  intros Hsing. unfold shouldExplode. rewrite Hsing.
  by destruct (canOptimizeLiveArg AD).
Qed.

End ShouldExplode.

(** ** Eligibility of a live argument *)

Section CanOptimizeLiveArg.

Context {SILModule : Type}.
Implicit Types (AD : ArgumentDescriptor SILModule).

Lemma isObject_isAddress (T : SILType) : isAddress T = negb (isObject T).
Proof. unfold isAddress, isObject. by destruct (Category T). Qed.

(** C5, as amended: [canOptimizeLiveArg] accepts an argument exactly when its
    type is an object (directly-passed) type, or an address type that
    contains an archetype and is passed under [Indirect_In] or
    [Indirect_In_Guaranteed]. *)
Theorem canOptimizeLiveArg_iff AD :
  canOptimizeLiveArg AD = true <->
  isObject (getType (Arg AD)) = true \/
  (isAddress (getType (Arg AD)) = true /\
   hasArchetype (getType (Arg AD)) = true /\
   (getArgumentConvention (Arg AD) = SILArgumentConvention.Indirect_In \/
    getArgumentConvention (Arg AD) = SILArgumentConvention.Indirect_In_Guaranteed)).
Proof.
  unfold canOptimizeLiveArg, Arg_hasConvention.
  destruct (isObject (getType (Arg AD))) eqn:Hobj.
  - split; [by left | done].
  - destruct (hasArchetype _ && isAddress _ && _) eqn:Hcond.
    + apply andb_true_iff in Hcond as [Hcond Hconv].
      apply andb_true_iff in Hcond as [Harch Haddr].
      apply orb_true_iff in Hconv.
      rewrite !bool_decide_eq_true in Hconv.
      split; [intros _; right; done | done].
    + split; [done |]. intros [? | (Haddr & Harch & Hconv)]; [done |].
      rewrite Harch, Haddr in Hcond. simpl in Hcond.
      apply orb_false_iff in Hcond as [H1 H2].
      rewrite bool_decide_eq_false in H1, H2. by destruct Hconv.
Qed.

(** An indirectly-passed argument whose type has no generic part is
    rejected, under every convention. *)
Lemma canOptimizeLiveArg_address_no_archetype AD :
  isAddress (getType (Arg AD)) = true ->
  hasArchetype (getType (Arg AD)) = false ->
  canOptimizeLiveArg AD = false.
Proof.
  intros Haddr Harch. unfold canOptimizeLiveArg.
  rewrite isObject_isAddress in Haddr. apply negb_true_iff in Haddr.
  by rewrite Haddr, Harch.
Qed.

End CanOptimizeLiveArg.

(** ** Ownership after the transformation, and construction *)

Section Descriptor.

Context {SILModule : Type}.
Variable isTrivial : SILType -> SILModule -> bool.
Variable newProjectionTree : SILModule -> SILType -> ProjectionTree.

Implicit Types (AD : ArgumentDescriptor SILModule).

(** C8: [getTransformedOwnershipKind] answers none for a descriptor that is
    entirely dead; otherwise [Trivial] for a trivial sub-type, also when the
    owned-to-guaranteed decision is set; otherwise [Guaranteed] when that
    decision is set; otherwise the ownership kind of the original argument. *)
Theorem getTransformedOwnershipKind_priority AD SubTy :
  (IsEntirelyDead AD = true ->
   getTransformedOwnershipKind isTrivial AD SubTy = None) /\
  (IsEntirelyDead AD = false ->
   isTrivial SubTy (getModule (Arg AD)) = true ->
   getTransformedOwnershipKind isTrivial AD SubTy =
   Some ValueOwnershipKind.Trivial) /\
  (IsEntirelyDead AD = false ->
   isTrivial SubTy (getModule (Arg AD)) = false ->
   OwnedToGuaranteed AD = true ->
   getTransformedOwnershipKind isTrivial AD SubTy =
   Some ValueOwnershipKind.Guaranteed) /\
  (IsEntirelyDead AD = false ->
   isTrivial SubTy (getModule (Arg AD)) = false ->
   OwnedToGuaranteed AD = false ->
   getTransformedOwnershipKind isTrivial AD SubTy =
   Some (getOwnershipKind (Arg AD))).
Proof.
  unfold getTransformedOwnershipKind.
  repeat split; intros; repeat match goal with H : _ = _ |- _ => rewrite H end;
    reflexivity.
Qed.

(** C9: a descriptor fresh from its constructor has every decision flag
    false and both release lists empty, and records the index of the
    argument and whether it is an indirect result. *)
Theorem mkArgumentDescriptor_initial (A : SILFunctionArgument SILModule) :
  let AD := mkArgumentDescriptor newProjectionTree A in
  IsEntirelyDead AD = false /\ WasErased AD = false /\
  Explode AD = false /\ OwnedToGuaranteed AD = false /\
  CalleeRelease AD = [] /\ CalleeReleaseInThrowBlock AD = [] /\
  Index AD = getIndex A /\ IsIndirectResult AD = isIndirectResult A.
Proof.
  unfold mkArgumentDescriptor. destruct (isIndirectResult A) eqn:HA; simpl;
    rewrite ?HA; repeat split.
Qed.

(** The constructor also keeps the argument and caches its parameter info,
    its declaration and a projection tree for its type. *)
Lemma mkArgumentDescriptor_cached (A : SILFunctionArgument SILModule) :
  let AD := mkArgumentDescriptor newProjectionTree A in
  Arg AD = A /\ PInfo AD = Some (getKnownParameterInfo A) /\
  Decl AD = getDecl A /\
  ProjTree AD = newProjectionTree (getModule A) (getType A).
Proof.
  unfold mkArgumentDescriptor. destruct (isIndirectResult A); simpl; done.
Qed.

End Descriptor.

(** ** The decisions on concrete arguments *)

Section Concrete.

Import Examples.

(** A guaranteed struct of two live fields is exploded; the leaf count
    decides. *)
Lemma shouldExplode_leaf_count_iff_witness :
  passesEligibility expandAll (descriptor guaranteedArg (fields 2) false false) /\
  (shouldExplode expandAll (descriptor guaranteedArg (fields 2) false false)
     someFound = true <->
   (1 <= getLiveLeafCount (fields 2) <= 3)%N).
Proof.
  assert (passesEligibility expandAll
            (descriptor guaranteedArg (fields 2) false false)) as Helig
    by (repeat split; reflexivity).
  split; [exact Helig |].
  apply (shouldExplode_leaf_count_iff expandAll
           (descriptor guaranteedArg (fields 2) false false) someFound Helig).
  reflexivity.
Defined.

Lemma shouldExplode_true_inv_witness :
  shouldExplode expandAll (descriptor ownedArg (fields 5) false false)
    someFound = true /\
  isSingleton (fields 5) = false /\
  hasConvention (descriptor ownedArg (fields 5) false false)
    SILArgumentConvention.Direct_Owned = true /\
  releaseSites (foundReleases (descriptor ownedArg (fields 5) false false)
                  someFound) <> [].
Proof.
  assert (shouldExplode expandAll (descriptor ownedArg (fields 5) false false)
            someFound = true) as H by reflexivity.
  destruct (shouldExplode_true_inv expandAll _ _ H) as (_ & Hsing & Hwide).
  split; [exact H |]. split; [exact Hsing |].
  apply Hwide. reflexivity.
Defined.

(** Three single-field structs around a scalar: never exploded, although
    the argument is owned with a partial match and has one live leaf. *)
Lemma shouldExplode_singleton_witness :
  getLiveLeafCount nested = 1%N /\
  shouldExplode expandAll (descriptor ownedArg nested false false)
    someFound = false.
Proof.
  split; [reflexivity |].
  apply (shouldExplode_singleton expandAll
           (descriptor ownedArg nested false false) someFound).
  reflexivity.
Defined.

(** C5, as stated, fails: an indirectly-passed struct with no generic part
    is eligible by the wording and rejected by [canOptimizeLiveArg]. *)
Lemma canOptimizeLiveArg_rejects_plain_address :
  isAddress (getType inArg) = true /\
  hasArchetype (getType inArg) = false /\
  canOptimizeLiveArg_as_worded (descriptor inArg (fields 2) false false) = true /\
  canOptimizeLiveArg (descriptor inArg (fields 2) false false) = false.
Proof. repeat split; reflexivity. Qed.

Lemma getTransformedOwnershipKind_priority_witness :
  getTransformedOwnershipKind trivialInt
    (descriptor ownedArg (fields 2) true true) IntTy = None /\
  getTransformedOwnershipKind trivialInt
    (descriptor ownedArg (fields 2) false true) IntTy =
    Some ValueOwnershipKind.Trivial /\
  getTransformedOwnershipKind trivialInt
    (descriptor ownedArg (fields 2) false true) StructTy =
    Some ValueOwnershipKind.Guaranteed /\
  getTransformedOwnershipKind trivialInt
    (descriptor ownedArg (fields 2) false false) StructTy =
    Some ValueOwnershipKind.Owned.
Proof.
  split; [| split; [| split]].
  - apply (proj1 (getTransformedOwnershipKind_priority trivialInt
                    (descriptor ownedArg (fields 2) true true) IntTy)).
    reflexivity.
  - apply (proj1 (proj2 (getTransformedOwnershipKind_priority trivialInt
                    (descriptor ownedArg (fields 2) false true) IntTy)));
      reflexivity.
  - apply (proj1 (proj2 (proj2 (getTransformedOwnershipKind_priority trivialInt
                    (descriptor ownedArg (fields 2) false true) StructTy))));
      reflexivity.
  - apply (proj2 (proj2 (proj2 (getTransformedOwnershipKind_priority trivialInt
                    (descriptor ownedArg (fields 2) false false) StructTy))));
      reflexivity.
Defined.

End Concrete.

(** ** The driver *)

Section Run.

Context {SILModule RCIdentityAnalysis EpilogueARCAnalysis : Type}.

Local Abbreviation State :=
  (PassState SILModule RCIdentityAnalysis EpilogueARCAnalysis).
Local Abbreviation Descriptor := (FunctionSignatureTransformDescriptor SILModule).

Variable DeadArgumentAnalyzeParameters :
  State -> bool * list (ArgumentDescriptor SILModule).
Variable OwnedToGuaranteedAnalyzeParameters :
  State -> bool * list (ArgumentDescriptor SILModule).
Variable OwnedToGuaranteedAnalyzeResults :
  State -> bool * list ResultDescriptor.t.
Variable ArgumentExplosionAnalyzeParameters :
  State -> bool * list (ArgumentDescriptor SILModule).
Variable createOptimizedSILFunctionName : Descriptor -> string.
Variable specializedFunction :
  Descriptor -> gmap string SILFunction -> SILFunction.
Variable thunkBody :
  string -> Descriptor -> SILFunction -> list SILInstruction.
Variable computeArgumentIndexMap : Descriptor -> gmap Z Z.
Variable indirectReferencesRewritten : bool.

Local Abbreviation O2GAnalyze :=
  (OwnedToGuaranteedAnalyze OwnedToGuaranteedAnalyzeParameters
     OwnedToGuaranteedAnalyzeResults).
Local Abbreviation synthesize :=
  (createFunctionSignatureOptimizedFunction createOptimizedSILFunctionName
     specializedFunction thunkBody computeArgumentIndexMap).
Local Abbreviation run' :=
  (run DeadArgumentAnalyzeParameters OwnedToGuaranteedAnalyzeParameters
     OwnedToGuaranteedAnalyzeResults ArgumentExplosionAnalyzeParameters
     createOptimizedSILFunctionName specializedFunction thunkBody
     computeArgumentIndexMap indirectReferencesRewritten).
Local Abbreviation analysed' :=
  (analysed DeadArgumentAnalyzeParameters OwnedToGuaranteedAnalyzeParameters
     OwnedToGuaranteedAnalyzeResults ArgumentExplosionAnalyzeParameters).

Implicit Types (S : State).

Lemma sameIR_refl S : sameIR S S.
Proof. by repeat split. Qed.

Lemma sameIR_trans (S1 S2 S3 : State) : sameIR S1 S2 -> sameIR S2 S3 -> sameIR S1 S3.
Proof.
  intros (? & ? & ? & ?) (? & ? & ? & ?). repeat split; congruence.
Qed.

Lemma sameIR_withArgumentDescList S ADL :
  sameIR S (withArgumentDescList S ADL).
Proof. by repeat split. Qed.

Lemma sameIR_withResultDescList S RDL :
  sameIR S (withResultDescList S RDL).
Proof. by repeat split. Qed.

Lemma sameIR_O2GAnalyze S : sameIR S (O2GAnalyze S).2.
Proof.
  unfold OwnedToGuaranteedAnalyze.
  destruct (OwnedToGuaranteedAnalyzeParameters S) as [Params ADL].
  destruct (OwnedToGuaranteedAnalyzeResults _) as [Result RDL]. simpl.
  eapply sameIR_trans;
    [apply sameIR_withArgumentDescList | apply sameIR_withResultDescList].
Qed.

Lemma sameIR_analysed S : sameIR S (analysed' S).
Proof.
  unfold analysed.
  eapply sameIR_trans; [apply sameIR_withArgumentDescList |].
  eapply sameIR_trans; [apply sameIR_O2GAnalyze |].
  apply sameIR_withArgumentDescList.
Qed.

(** [run] either reports no opportunity and leaves the IR alone, or reports
    one and returns the synthesised state. *)
Lemma run_cases hasCaller S :
  ((run' hasCaller S).1 = false /\ sameIR S (run' hasCaller S).2) \/
  ((run' hasCaller S).1 = true /\
   (run' hasCaller S).2 = synthesize (analysed' S)).
Proof.
  unfold run, analysed.
  destruct (negb (hasCaller || indirectReferencesRewritten)).
  { left. split; [done | apply sameIR_refl]. }
  destruct (DeadArgumentAnalyzeParameters S) as [Dead ADL1] eqn:HD. simpl.
  destruct (O2GAnalyze (withArgumentDescList S ADL1)) as [O2G S2] eqn:HO.
  destruct (ArgumentExplosionAnalyzeParameters S2) as [Exploded ADL3] eqn:HE.
  simpl. destruct (Dead || O2G || Exploded).
  - right. by rewrite HE.
  - left. split; [done |]. simpl.
    pose proof (sameIR_analysed S) as H. unfold analysed in H.
    rewrite HD in H. simpl in H. rewrite HO in H. simpl in H.
    rewrite HE in H. exact H.
Qed.

(** C6: when none of the three sub-analyses finds an opportunity, [run]
    returns false and mutates no IR: the function table, with the body and
    the signature of the original function in it, is unchanged, and no
    specialised function is recorded or created. *)
Theorem run_no_opportunity hasCaller S :
  let Dead := DeadArgumentAnalyzeParameters S in
  let S1 := withArgumentDescList S Dead.2 in
  let O2G := O2GAnalyze S1 in
  let Exploded := ArgumentExplosionAnalyzeParameters O2G.2 in
  Dead.1 = false -> O2G.1 = false -> Exploded.1 = false ->
  (run' hasCaller S).1 = false /\
  Functions (run' hasCaller S).2 = Functions S /\
  Functions (run' hasCaller S).2
    !! OriginalFunction (TransformDescriptor (Transform S)) =
  Functions S !! OriginalFunction (TransformDescriptor (Transform S)) /\
  getOptimizedFunction (Transform (run' hasCaller S).2) =
  getOptimizedFunction (Transform S).
Proof.
  intros Dead S1 O2G Exploded HD HO HE.
  assert ((run' hasCaller S).1 = false) as Hret.
  { subst Dead S1 O2G Exploded. unfold run.
    destruct (negb (hasCaller || indirectReferencesRewritten)); [done |].
    destruct (DeadArgumentAnalyzeParameters S) as [d ADL1]. simpl in *.
    destruct (O2GAnalyze (withArgumentDescList S ADL1)) as [o S2]. simpl in *.
    destruct (ArgumentExplosionAnalyzeParameters S2) as [e ADL3]. simpl in *.
    by rewrite HD, HO, HE. }
  destruct (run_cases hasCaller S)
    as [[_ (HF & _ & HOpt & _)] | [Htrue _]]; [| congruence].
  unfold getOptimizedFunction. rewrite HF. done.
Qed.

(** C7: a freshly constructed transform has no optimised function; after
    [run] on it, an optimised function is present exactly when [run]
    returned true, and then it is the specialised function that synthesis
    added to the function table; otherwise the table is as it was. *)
Theorem getOptimizedFunction_run F RCIA0 EA0 AIM0 ADL RDL table hasCaller :
  let T := mkFunctionSignatureTransform (RCIdentityAnalysis := RCIdentityAnalysis)
             (EpilogueARCAnalysis := EpilogueARCAnalysis)
             F RCIA0 EA0 AIM0 ADL RDL in
  let S := {| Functions := table; Transform := T |} in
  let R := run' hasCaller S in
  getOptimizedFunction T = None /\
  (R.1 = true <-> is_Some (getOptimizedFunction (Transform R.2))) /\
  match getOptimizedFunction (Transform R.2) with
  | Some NewF =>
      R.1 = true /\
      NewF = createOptimizedSILFunctionName
               (TransformDescriptor (Transform (analysed' S))) /\
      Functions R.2 !! NewF =
      Some (specializedFunction
              (TransformDescriptor (Transform (analysed' S))) table)
  | None => R.1 = false /\ Functions R.2 = table
  end.
Proof.
  intros T S R. split; [reflexivity |].
  destruct (run_cases hasCaller S)
    as [[Hret (HF & _ & HOpt & _)] | [Hret Hst]]; fold R in Hret |- *.
  - fold R in HF, HOpt. unfold getOptimizedFunction. rewrite HOpt, Hret.
    simpl. split; [| done]. split; [done | by intros [? ?]].
  - fold R in Hst. rewrite Hst, Hret.
    pose proof (sameIR_analysed S) as (HF & _).
    unfold getOptimizedFunction, createFunctionSignatureOptimizedFunction.
    cbn [Functions Transform TransformDescriptor OptimizedFunction fst snd].
    rewrite HF, lookup_insert_eq.
    split; [split; [by eexists | done] |]. done.
Qed.

End Run.

Section ConcreteRun.

Import Examples.

(** A function whose only argument is a singleton offers no opportunity:
    [run] returns false and the function table is as before. *)
Lemma run_no_opportunity_witness :
  (runExample nested true).1 = false /\
  Functions (runExample nested true).2 = Functions (initialState nested).
Proof.
  pose proof (run_no_opportunity keepArguments keepArguments keepResults
                explodeByPolicy mangledName cloneOriginal forwardingBody
                identityMap false true (initialState nested)
                eq_refl eq_refl eq_refl) as (Hret & Hframe & _).
  exact (conj Hret Hframe).
Defined.

(** With an argument of two live fields, [run] returns true, records the
    specialised function and adds it to the table, and the original keeps
    its signature and becomes a thunk. *)
Example run_specializes :
  (runExample (fields 2) true).1 = true /\
  getOptimizedFunction (Transform (runExample (fields 2) true).2) = Some "fTf" /\
  Functions (runExample (fields 2) true).2 !! "fTf" = Some functionF /\
  Functions (runExample (fields 2) true).2 !! "f" =
    Some {| FnParameters := FnParameters functionF;
            FnResults := FnResults functionF; FnBody := [1%positive] |}.
Proof. repeat split; by vm_compute. Qed.

(** Without a caller and without the policy flag nothing is attempted. *)
Example run_without_caller :
  runExample (fields 2) false = (false, initialState (fields 2)).
Proof. reflexivity. Qed.

End ConcreteRun.

(** ** The power-of-two tests *)

Module IsPowerFacts.
Import IsPower.
Local Open Scope Z_scope.

Lemma land_even_odd a b : Z.land (2 * a) (2 * b + 1) = 2 * Z.land a b.
Proof.
  apply Z.bits_inj'. intros n Hn. rewrite Z.land_spec.
  destruct (Z.eq_dec n 0) as [-> | Hne].
  - by rewrite !Z.testbit_even_0.
  - replace n with (Z.succ (n - 1)) by lia.
    rewrite !Z.testbit_even_succ, Z.testbit_odd_succ, Z.land_spec by lia.
    done.
Qed.

Lemma isPowerOfTwo_pos v : isPowerOfTwo v -> 0 < v.
Proof. intros (k & Hk & ->). by apply Z.pow_pos_nonneg. Qed.

Lemma isPowerOfTwo_even v : 0 < v -> isPowerOfTwo (2 * v) <-> isPowerOfTwo v.
Proof.
  intros Hv. split.
  - intros (k & Hk & Heq).
    assert (k = 0 \/ 0 < k) as [-> | Hpos] by lia; [simpl in Heq; lia |].
    exists (k - 1). split; [lia |].
    replace k with (1 + (k - 1)) in Heq by lia.
    rewrite Z.pow_add_r in Heq by lia. lia.
  - intros (k & Hk & ->). exists (1 + k). split; [lia |].
    rewrite Z.pow_add_r by lia. lia.
Qed.

Lemma isPowerOfTwo_odd v : 0 < v -> ~ isPowerOfTwo (2 * v + 1).
Proof.
  intros Hv (k & Hk & Heq).
  assert (k = 0 \/ 0 < k) as [-> | Hpos] by lia; [simpl in Heq; lia |].
  replace k with (1 + (k - 1)) in Heq by lia.
  rewrite Z.pow_add_r in Heq by lia. lia.
Qed.

Lemma land_pred_positive p :
  Z.land (Z.pos p) (Z.pos p - 1) = 0 <-> isPowerOfTwo (Z.pos p).
Proof.
  induction p as [q IH | q IH |].
  - rewrite Pos2Z.inj_xI.
    replace (2 * Z.pos q + 1 - 1) with (2 * Z.pos q) by lia.
    rewrite Z.land_comm, land_even_odd, Z.land_diag.
    split; [lia |]. intros H. by apply isPowerOfTwo_odd in H.
  - rewrite Pos2Z.inj_xO.
    replace (2 * Z.pos q - 1) with (2 * (Z.pos q - 1) + 1) by lia.
    rewrite land_even_odd, isPowerOfTwo_even by lia.
    rewrite <- IH. lia.
  - split; [| done]. intros _. exists 0. done.
Qed.

Lemma land_pred_zero v :
  0 < v -> Z.land v (v - 1) = 0 <-> isPowerOfTwo v.
Proof. destruct v; try lia. intros _. apply land_pred_positive. Qed.

Section Words.

Variable bitWidth : Z.
Hypothesis bitWidth_pos : 0 < bitWidth.

Local Abbreviation isUInt := (isUInt bitWidth).
Local Abbreviation magnitudeOf := (magnitudeOf bitWidth).

Lemma radix_pos : 0 < 2 ^ bitWidth.
Proof. apply Z.pow_pos_nonneg; lia. Qed.

Lemma magnitudeOf_bounds ws :
  Forall isUInt ws ->
  0 <= magnitudeOf ws < 2 ^ (bitWidth * Z.of_nat (length ws)).
Proof.
  pose proof radix_pos as Hr.
  induction 1 as [| w ws [Hw0 Hw1] _ IH]; simpl magnitudeOf.
  - simpl. rewrite Z.mul_0_r. simpl. lia.
  - rewrite length_cons, Nat2Z.inj_succ, Z.mul_succ_r, Z.add_comm.
    rewrite Z.pow_add_r by lia. nia.
Qed.

(** A word in range on top of a multiple of the radix is a power of two
    only when nothing lies above it. *)
Lemma isPowerOfTwo_low_word w m :
  0 < w < 2 ^ bitWidth -> 0 <= m ->
  isPowerOfTwo (w + 2 ^ bitWidth * m) -> m = 0.
Proof.
  intros Hw Hm (k & Hk & Heq). pose proof radix_pos as Hr.
  destruct (Z.lt_ge_cases k bitWidth) as [Hlt | Hge].
  - assert (2 ^ k < 2 ^ bitWidth) by (apply Z.pow_lt_mono_r; lia). nia.
  - replace k with (bitWidth + (k - bitWidth)) in Heq by lia.
    rewrite Z.pow_add_r in Heq by lia.
    set (R := 2 ^ bitWidth) in *. set (P := 2 ^ (k - bitWidth)) in *.
    assert (w = R * (P - m)) as Hw' by lia.
    assert (0 < P - m) by nia. nia.
Qed.

Lemma isPowerOfTwo_shift m :
  0 <= m -> isPowerOfTwo (2 ^ bitWidth * m) <-> isPowerOfTwo m.
Proof.
  intros Hm. pose proof radix_pos as Hr. split.
  - intros (k & Hk & Heq).
    assert (0 < 2 ^ k) by (apply Z.pow_pos_nonneg; lia).
    destruct (Z.lt_ge_cases k bitWidth) as [Hlt | Hge].
    + assert (2 ^ k < 2 ^ bitWidth) by (apply Z.pow_lt_mono_r; lia).
      assert (0 < m) by nia. nia.
    + exists (k - bitWidth). split; [lia |].
      replace k with (bitWidth + (k - bitWidth)) in Heq by lia.
      rewrite Z.pow_add_r in Heq by lia. nia.
  - intros (k & Hk & ->). exists (bitWidth + k). split; [lia |].
    by rewrite Z.pow_add_r by lia.
Qed.

Lemma scanWords_found ws :
  Forall isUInt ws ->
  scanWords ws true = Some (magnitudeOf ws =? 0).
Proof.
  pose proof radix_pos as Hr.
  induction 1 as [| w ws [Hw0 Hw1] Hws IH]; [done |].
  pose proof (magnitudeOf_bounds ws Hws) as [Hm _].
  simpl. destruct (w =? 0) eqn:Hz.
  - apply Z.eqb_eq in Hz as ->. rewrite IH. f_equal.
    destruct (magnitudeOf ws =? 0) eqn:E.
    + apply Z.eqb_eq in E. symmetry. apply Z.eqb_eq. lia.
    + apply Z.eqb_neq in E. symmetry. apply Z.eqb_neq. nia.
  - apply Z.eqb_neq in Hz. f_equal. symmetry. apply Z.eqb_neq. nia.
Qed.

Lemma scanWords_fresh ws :
  Forall isUInt ws ->
  exists b, scanWords ws false = Some b /\
            (b = true <-> isPowerOfTwo (magnitudeOf ws)).
Proof.
  pose proof radix_pos as Hr.
  induction 1 as [| w ws [Hw0 Hw1] Hws IH].
  - exists false. split; [done |]. split; [done |].
    intros H. apply isPowerOfTwo_pos in H. simpl in H. lia.
  - pose proof (magnitudeOf_bounds ws Hws) as [Hm _].
    simpl. destruct (w =? 0) eqn:Hz.
    + apply Z.eqb_eq in Hz as ->. destruct IH as (b & -> & Hb).
      exists b. split; [done |]. rewrite Hb, Z.add_0_l.
      by rewrite isPowerOfTwo_shift.
    + apply Z.eqb_neq in Hz. unfold UInt_sub.
      destruct (w <? 1) eqn:Hlt; [apply Z.ltb_lt in Hlt; lia |]. simpl.
      destruct (Z.land w (w - 1) =? 0) eqn:Hland; simpl.
      * apply Z.eqb_eq in Hland. apply land_pred_zero in Hland; [| lia].
        rewrite scanWords_found by done.
        exists (magnitudeOf ws =? 0). split; [done |].
        rewrite Z.eqb_eq. split.
        -- intros ->. by rewrite Z.mul_0_r, Z.add_0_r.
        -- apply isPowerOfTwo_low_word; lia.
      * apply Z.eqb_neq in Hland. exists false. split; [done |].
        split; [done |]. intros Hpow.
        assert (magnitudeOf ws = 0) as Hz0
          by (eapply isPowerOfTwo_low_word; [| | exact Hpow]; lia).
        rewrite Hz0, Z.mul_0_r, Z.add_0_r in Hpow.
        apply land_pred_zero in Hpow; [done | lia].
Qed.

Lemma classic_spec x :
  _isPowerOfTwo_classic bitWidth x = true <-> isPowerOfTwo (toZ bitWidth x).
Proof.
  unfold _isPowerOfTwo_classic.
  destruct (0 <? toZ bitWidth x) eqn:Hpos.
  - apply Z.ltb_lt in Hpos. rewrite Z.eqb_eq. by apply land_pred_zero.
  - apply Z.ltb_ge in Hpos. split; [done |].
    intros H. apply isPowerOfTwo_pos in H. lia.
Qed.

Lemma Int_bitPattern_negative w :
  isUInt w -> (Int_bitPattern bitWidth w <? 0) = (2 ^ (bitWidth - 1) <=? w).
Proof.
  intros [Hw0 Hw1]. unfold Int_bitPattern.
  destruct (w <? 2 ^ (bitWidth - 1)) eqn:Hlt.
  - apply Z.ltb_lt in Hlt.
    rewrite (proj2 (Z.ltb_ge _ _)), (proj2 (Z.leb_gt _ _)); [done | lia | lia].
  - apply Z.ltb_ge in Hlt.
    rewrite (proj2 (Z.ltb_lt _ _)), (proj2 (Z.leb_le _ _)); [done | lia | lia].
Qed.

Lemma half_radix : 2 ^ bitWidth = 2 * 2 ^ (bitWidth - 1).
Proof.
  replace bitWidth with (1 + (bitWidth - 1)) at 1 by lia.
  rewrite Z.pow_add_r by lia. done.
Qed.

(** The only power of two with the top bit of a word set. *)
Lemma isPowerOfTwo_top_bit w :
  2 ^ (bitWidth - 1) <= w < 2 ^ bitWidth -> isPowerOfTwo w ->
  w = 2 ^ (bitWidth - 1).
Proof.
  intros [Hlo Hhi] (k & Hk & ->). f_equal.
  apply Z.pow_le_mono_r_iff in Hlo; [| lia | lia].
  apply Z.pow_lt_mono_r_iff in Hhi; [| lia | lia]. lia.
Qed.

(** The single-word branch of [_isPowerOfTwo_words]. *)
Lemma words_single s w :
  isUInt w ->
  _isPowerOfTwo_words bitWidth {| isSigned := s; words := [w] |} =
  Some ((0 <? w) && (Z.land w (w - 1) =? 0)).
Proof.
  intros [Hw0 Hw1]. unfold _isPowerOfTwo_words, UInt_sub. simpl.
  destruct (0 <? w) eqn:Hpos; [| done].
  apply Z.ltb_lt in Hpos.
  by rewrite (proj2 (Z.ltb_ge w 1)) by lia.
Qed.

(** Apart from the single word that has only its top bit set, read as a
    signed value, the two tests agree, and the words test does not trap. *)
Theorem words_agrees_with_classic x :
  wellFormed bitWidth x -> words x <> [] ->
  ~ (isSigned x = true /\ words x = [2 ^ (bitWidth - 1)]) ->
  _isPowerOfTwo_words bitWidth x = Some (_isPowerOfTwo_classic bitWidth x).
Proof.
  pose proof radix_pos as Hr. pose proof half_radix as Hhalf.
  destruct x as [s ws]. unfold wellFormed. simpl.
  intros Hwf Hne Hmin.
  destruct ws as [| w [| w2 rest]]; [done | |].
  - (* one word *)
    pose proof (Forall_inv Hwf) as Hw. pose proof Hw as [Hw0 Hw1].
    rewrite words_single by done. f_equal.
    unfold _isPowerOfTwo_classic, toZ. simpl.
    rewrite Int_bitPattern_negative by done.
    rewrite Z.mul_0_r, Z.add_0_r, Z.mul_1_r.
    destruct (s && (2 ^ (bitWidth - 1) <=? w)) eqn:Hneg.
    + apply andb_true_iff in Hneg as [-> Htop]. apply Z.leb_le in Htop.
      rewrite (proj2 (Z.ltb_ge 0 (w - 2 ^ bitWidth))) by lia.
      apply andb_false_iff. right. apply Z.eqb_neq. intros Hland.
      apply land_pred_zero in Hland; [| lia].
      apply Hmin. split; [done |]. f_equal.
      by apply isPowerOfTwo_top_bit.
    + by destruct (0 <? w).
  - (* several words *)
    set (ws := w :: w2 :: rest) in *.
    pose proof (magnitudeOf_bounds ws Hwf) as [Hm0 Hm1].
    unfold _isPowerOfTwo_words, _isPowerOfTwo_classic, toZ.
    cbn [words isSigned].
    rewrite bool_decide_eq_false_2 by done.
    replace (length ws =? 1)%nat with false by done.
    destruct (s && (Int_bitPattern bitWidth (List.last ws 0) <? 0)) eqn:Hneg.
    + rewrite (proj2 (Z.ltb_ge 0 _)) by lia. done.
    + destruct (scanWords_fresh ws Hwf) as (b & -> & Hb). f_equal.
      destruct (0 <? magnitudeOf ws) eqn:Hpos.
      * apply Z.ltb_lt in Hpos.
        destruct b.
        -- symmetry. apply Z.eqb_eq, land_pred_zero; [done | by apply Hb].
        -- symmetry. apply Z.eqb_neq. intros Hland.
           apply land_pred_zero in Hland; [| done].
           apply Hb in Hland. done.
      * apply Z.ltb_ge in Hpos. destruct b; [| done].
        assert (isPowerOfTwo (magnitudeOf ws)) as H by by apply Hb.
        apply isPowerOfTwo_pos in H. lia.
Qed.

(** Where they part: a signed value whose single word has only the top bit
    set is the most negative value of its type; the words test accepts it,
    the classic test does not. *)
Theorem words_accepts_signed_min :
  let x := {| isSigned := true; words := [2 ^ (bitWidth - 1)] |} in
  wellFormed bitWidth x /\
  toZ bitWidth x = - 2 ^ (bitWidth - 1) /\
  _isPowerOfTwo_words bitWidth x = Some true /\
  _isPowerOfTwo_classic bitWidth x = false.
Proof.
  pose proof radix_pos as Hr. pose proof half_radix as Hhalf.
  assert (0 < 2 ^ (bitWidth - 1)) as Hh by (apply Z.pow_pos_nonneg; lia).
  assert (isUInt (2 ^ (bitWidth - 1))) as Hw by (unfold IsPower.isUInt; lia).
  intros x.
  assert (toZ bitWidth x = - 2 ^ (bitWidth - 1)) as HtoZ.
  { unfold toZ, x. simpl. rewrite Int_bitPattern_negative by done.
    rewrite (proj2 (Z.leb_le _ _)) by lia.
    rewrite Z.mul_0_r, Z.add_0_r, Z.mul_1_r. lia. }
  split; [by constructor |]. split; [done |]. split.
  - unfold x. rewrite words_single by done. f_equal.
    rewrite (proj2 (Z.ltb_lt _ _)) by lia. simpl.
    apply Z.eqb_eq, land_pred_zero; [lia |].
    exists (bitWidth - 1). split; [lia | done].
  - unfold _isPowerOfTwo_classic. rewrite HtoZ.
    by rewrite (proj2 (Z.ltb_ge _ _)) by lia.
Qed.

End Words.

(** C10 at its failing input: [Int64.min] has the single word [2^63]. The
    words test answers true for it, the classic test answers false. *)
Theorem isPowerOfTwo_words_Int64_min :
  wellFormed 64 Int64_min /\
  toZ 64 Int64_min = -9223372036854775808 /\
  _isPowerOfTwo_words 64 Int64_min = Some true /\
  _isPowerOfTwo_classic 64 Int64_min = false.
Proof.
  split; [| by vm_compute].
  constructor; [| constructor]. unfold isUInt. lia.
Qed.

End IsPowerFacts.

(** ** More on the descriptor *)

Section DescriptorMore.

Context {SILModule : Type}.
Variable shouldExpand : SILModule -> SILType -> bool.
Variable isTrivial : SILType -> SILModule -> bool.
Variable newProjectionTree : SILModule -> SILType -> ProjectionTree.

Implicit Types (AD : ArgumentDescriptor SILModule)
               (ERM : ConsumedArgToEpilogueReleaseMatcher).

(** X17: [shouldExplode] accepts only an argument that [canOptimizeLiveArg]
    accepts and whose object type the expansion oracle approves, also when
    the owned override decides. *)
Theorem shouldExplode_accepts_only_eligible AD ERM :
  shouldExplode shouldExpand AD ERM = true ->
  canOptimizeLiveArg AD = true /\
  shouldExpand (getModule (Arg AD)) (getObjectType (getType (Arg AD))) = true.
Proof.
  intros H. apply shouldExplode_true_eligible in H as (Hopt & _ & Hexp).
  by split.
Qed.

(** X18: the release matcher matters for owned arguments only: for an
    argument of any other convention [shouldExplode] gives the same answer
    under every matcher. *)
Theorem shouldExplode_matcher_irrelevant AD ERM1 ERM2 :
  hasConvention AD SILArgumentConvention.Direct_Owned = false ->
  shouldExplode shouldExpand AD ERM1 = shouldExplode shouldExpand AD ERM2.
Proof.
  intros Hconv. unfold shouldExplode. rewrite Hconv.
  repeat (destruct (_ : bool); try reflexivity).
Qed.

(** X19: the transformed ownership kind is absent exactly for a descriptor
    that is entirely dead. *)
Theorem getTransformedOwnershipKind_None AD SubTy :
  getTransformedOwnershipKind isTrivial AD SubTy = None <->
  IsEntirelyDead AD = true.
Proof.
  unfold getTransformedOwnershipKind.
  destruct (IsEntirelyDead AD); [done |].
  destruct (isTrivial _ _); [done |]. by destruct (OwnedToGuaranteed AD).
Qed.

(** X20: once the owned-to-guaranteed decision is set, the transformed
    ownership kind is never [Owned] and never [Unowned]: it is absent,
    [Trivial] or [Guaranteed]. *)
Theorem getTransformedOwnershipKind_narrowed AD SubTy :
  OwnedToGuaranteed AD = true ->
  getTransformedOwnershipKind isTrivial AD SubTy <>
    Some ValueOwnershipKind.Owned /\
  getTransformedOwnershipKind isTrivial AD SubTy <>
    Some ValueOwnershipKind.Unowned.
Proof.
  intros HO. unfold getTransformedOwnershipKind. rewrite HO.
  destruct (IsEntirelyDead AD); [done |]. by destruct (isTrivial _ _).
Qed.

(** X21: for a descriptor fresh from its constructor the transformed
    ownership kind is present: [Trivial] for a trivial sub-type, the
    ownership kind of the argument otherwise. *)
Theorem getTransformedOwnershipKind_fresh (A : SILFunctionArgument SILModule)
    SubTy :
  getTransformedOwnershipKind isTrivial
    (mkArgumentDescriptor newProjectionTree A) SubTy =
  Some (if isTrivial SubTy (getModule A)
        then ValueOwnershipKind.Trivial else getOwnershipKind A).
Proof.
  unfold getTransformedOwnershipKind, mkArgumentDescriptor.
  destruct (isIndirectResult A); simpl; by destruct (isTrivial _ _).
Qed.

(** X22: an indirectly-passed argument is never exploded unless its type
    has a generic part and its convention is [Indirect_In] or
    [Indirect_In_Guaranteed]; the owned override does not reach it. *)
Theorem shouldExplode_indirect AD ERM :
  isAddress (getType (Arg AD)) = true ->
  shouldExplode shouldExpand AD ERM = true ->
  hasArchetype (getType (Arg AD)) = true /\
  (getArgumentConvention (Arg AD) = SILArgumentConvention.Indirect_In \/
   getArgumentConvention (Arg AD) = SILArgumentConvention.Indirect_In_Guaranteed).
Proof.
  intros Haddr H. apply shouldExplode_true_eligible in H as (Hopt & _ & _).
  unfold canOptimizeLiveArg, Arg_hasConvention in Hopt.
  rewrite isObject_isAddress in Haddr. apply negb_true_iff in Haddr.
  rewrite Haddr in Hopt.
  destruct (hasArchetype _); [| done]. split; [done |].
  simpl in Hopt. destruct (isAddress _); [| done]. simpl in Hopt.
  destruct (bool_decide _) eqn:H1 in Hopt.
  - left. by apply bool_decide_eq_true in H1.
  - destruct (bool_decide _) eqn:H2 in Hopt; [| done].
    right. by apply bool_decide_eq_true in H2.
Qed.

End DescriptorMore.

Section ConcreteDescriptorMore.

Import Examples.

Lemma shouldExplode_accepts_only_eligible_witness :
  canOptimizeLiveArg (descriptor ownedArg (fields 5) false false) = true /\
  expandAll tt (getObjectType StructTy) = true.
Proof.
  apply (shouldExplode_accepts_only_eligible expandAll
           (descriptor ownedArg (fields 5) false false) someFound).
  reflexivity.
Defined.

(** A guaranteed struct of five live fields is rejected whether the matcher
    found nothing or a part of the releases. *)
Lemma shouldExplode_matcher_irrelevant_witness :
  shouldExplode expandAll (descriptor guaranteedArg (fields 5) false false)
    noneFound =
  shouldExplode expandAll (descriptor guaranteedArg (fields 5) false false)
    someFound.
Proof.
  apply (shouldExplode_matcher_irrelevant expandAll
           (descriptor guaranteedArg (fields 5) false false)
           noneFound someFound).
  reflexivity.
Defined.

Lemma getTransformedOwnershipKind_narrowed_witness :
  getTransformedOwnershipKind trivialInt
    (descriptor ownedArg (fields 2) false true) StructTy <>
    Some ValueOwnershipKind.Owned /\
  getTransformedOwnershipKind trivialInt
    (descriptor ownedArg (fields 2) false true) StructTy <>
    Some ValueOwnershipKind.Unowned.
Proof.
  apply (getTransformedOwnershipKind_narrowed trivialInt
           (descriptor ownedArg (fields 2) false true) StructTy).
  reflexivity.
Defined.

(** A generic [@in] argument of two live fields. *)
Lemma shouldExplode_indirect_witness :
  hasArchetype (getType genericInArg) = true /\
  (getArgumentConvention genericInArg = SILArgumentConvention.Indirect_In \/
   getArgumentConvention genericInArg =
     SILArgumentConvention.Indirect_In_Guaranteed).
Proof.
  apply (shouldExplode_indirect expandAll
           (descriptor genericInArg (fields 2) false false) noneFound);
    reflexivity.
Defined.

End ConcreteDescriptorMore.

(** ** The remaining tests of the benchmark *)

Module IsPowerValues.
Import IsPower IsPowerFacts.
Local Open Scope Z_scope.

(** *** Trailing zeros and set bits *)

Lemma Pos_ctz_nonneg p : 0 <= Pos_ctz p.
Proof. induction p; simpl; lia. Qed.

Lemma Pos_popcount_pos p : 1 <= Pos_popcount p.
Proof. induction p; simpl; lia. Qed.

Lemma trailingZeroBitCount_double selfBitWidth z :
  z <> 0 ->
  trailingZeroBitCount selfBitWidth (2 * z) =
  Z.succ (trailingZeroBitCount selfBitWidth z).
Proof. by destruct z. Qed.

Lemma trailingZeroBitCount_odd selfBitWidth z :
  0 <= z -> trailingZeroBitCount selfBitWidth (2 * z + 1) = 0.
Proof. by destruct z. Qed.

(** The trailing zeros of [2 ^ k] times an odd number are [k]. *)
Lemma trailingZeroBitCount_pow2_mul selfBitWidth k q :
  0 <= k -> 0 <= q ->
  trailingZeroBitCount selfBitWidth (2 ^ k * (2 * q + 1)) = k.
Proof.
  intros Hk Hq. revert k Hk. apply natlike_ind.
  - rewrite Z.mul_1_l. by apply trailingZeroBitCount_odd.
  - intros k Hk IH. rewrite Z.pow_succ_r, <- Z.mul_assoc by done.
    rewrite trailingZeroBitCount_double, IH; [done |].
    assert (0 < 2 ^ k) by (apply Z.pow_pos_nonneg; lia). nia.
Qed.

Lemma trailingZeroBitCount_pow2 selfBitWidth k :
  0 <= k -> trailingZeroBitCount selfBitWidth (2 ^ k) = k.
Proof.
  intros Hk.
  rewrite <- (trailingZeroBitCount_pow2_mul selfBitWidth k 0) at 2 by lia.
  f_equal. lia.
Qed.

Lemma Pos_ctz_power p :
  Z.pos p = 2 ^ Pos_ctz p <-> isPowerOfTwo (Z.pos p).
Proof.
  induction p as [q IH | q IH |]; simpl Pos_ctz.
  - rewrite Pos2Z.inj_xI. split; [simpl; lia |].
    intros H. by apply isPowerOfTwo_odd in H.
  - rewrite Pos2Z.inj_xO, Z.pow_succ_r by apply Pos_ctz_nonneg.
    rewrite isPowerOfTwo_even, <- IH by lia. lia.
  - split; [| done]. intros _. by exists 0.
Qed.

Lemma Pos_popcount_power p :
  Pos_popcount p = 1 <-> isPowerOfTwo (Z.pos p).
Proof.
  induction p as [q IH | q IH |]; simpl Pos_popcount.
  - rewrite Pos2Z.inj_xI. pose proof (Pos_popcount_pos q) as Hq.
    split; [lia |]. intros H. by apply isPowerOfTwo_odd in H.
  - rewrite Pos2Z.inj_xO, isPowerOfTwo_even by lia. done.
  - split; [| done]. intros _. by exists 0.
Qed.

Lemma cttz_iff selfBitWidth self :
  _isPowerOfTwo_cttz selfBitWidth self = true <-> isPowerOfTwo self.
Proof.
  unfold _isPowerOfTwo_cttz. destruct self as [| p | p].
  - split; [done |]. intros H. apply isPowerOfTwo_pos in H. lia.
  - change (0 <? Z.pos p) with true. cbn [trailingZeroBitCount].
    rewrite Z.eqb_eq, Z.shiftl_1_l. apply Pos_ctz_power.
  - split; [done |]. intros H. apply isPowerOfTwo_pos in H. lia.
Qed.

(** X4: the count-trailing-zeros test answers true exactly for the positive
    powers of two. *)
Theorem isPowerOfTwo_cttz_spec selfBitWidth self :
  _isPowerOfTwo_cttz selfBitWidth self = true <-> isPowerOfTwo self.
Proof. exact (cttz_iff selfBitWidth self). Qed.

Lemma ctpop_iff selfBitWidth self :
  _isPowerOfTwo_ctpop selfBitWidth self = true <-> isPowerOfTwo self.
Proof.
  unfold _isPowerOfTwo_ctpop. destruct self as [| p | p].
  - split; [done |]. intros H. apply isPowerOfTwo_pos in H. lia.
  - change (0 <? Z.pos p) with true. cbn [nonzeroBitCount Z_popcount].
    rewrite Z.eqb_eq. apply Pos_popcount_power.
  - split; [done |]. intros H. apply isPowerOfTwo_pos in H. lia.
Qed.

(** X6: the population-count test answers true exactly for the positive
    powers of two. *)
Theorem isPowerOfTwo_ctpop_spec selfBitWidth self :
  _isPowerOfTwo_ctpop selfBitWidth self = true <-> isPowerOfTwo self.
Proof. exact (ctpop_iff selfBitWidth self). Qed.

(** X5: in the count-trailing-zeros test the shifted one never exceeds a
    positive [self], so the shift loses no bit in a type that holds
    [self]. *)
Theorem isPowerOfTwo_cttz_shift_in_range selfBitWidth self :
  0 < self ->
  1 <= Z.shiftl 1 (trailingZeroBitCount selfBitWidth self) <= self.
Proof.
  destruct self as [| p | p]; try lia. intros _.
  cbn [trailingZeroBitCount]. rewrite Z.shiftl_1_l. induction p as [q IH | q IH |]; simpl Pos_ctz.
  - simpl. lia.
  - rewrite Z.pow_succ_r by apply Pos_ctz_nonneg. lia.
  - simpl. lia.
Qed.

(** *** The slow path *)

Lemma abs_pow base n : 0 <= n -> Z.abs (base ^ n) = Z.abs base ^ n.
Proof.
  intros Hn. revert n Hn. apply natlike_ind; [done |].
  intros n Hn IH. by rewrite !Z.pow_succ_r, Z.abs_mul, IH by done.
Qed.

Lemma pow_two_le base n : 0 <= n -> 2 <= base -> 2 ^ n <= base ^ n.
Proof. intros. apply Z.pow_le_mono_l. lia. Qed.

(** The loop stops: started at a nonzero [x] with enough rounds, it returns
    [x * base ^ j] for the first [j] at which the magnitude reaches that of
    [bound]. *)
Lemma slowLoop_finish base bound :
  2 <= Z.abs base ->
  forall fuel x,
    x <> 0 -> Z.abs bound < Z.abs x * 2 ^ Z.of_nat fuel ->
    exists j, 0 <= j /\
      slowLoop fuel base bound x = Some (x * base ^ j) /\
      Z.abs bound <= Z.abs (x * base ^ j) /\
      (forall i, 0 <= i < j -> Z.abs (x * base ^ i) < Z.abs bound).
Proof.
  intros Hbase. induction fuel as [| fuel IH]; intros x Hx Hfuel.
  - exists 0. simpl. unfold magnitude.
    rewrite (proj2 (Z.ltb_ge _ _)) by (simpl in Hfuel; lia).
    rewrite Z.mul_1_r. repeat split; [done | simpl in Hfuel; lia | lia].
  - simpl. unfold magnitude.
    destruct (Z.abs x <? Z.abs bound) eqn:Hlt.
    + apply Z.ltb_lt in Hlt.
      destruct (IH (x * base)) as (j & Hj & Hrun & Hge & Hbelow).
      * nia.
      * rewrite Z.abs_mul. rewrite Nat2Z.inj_succ, Z.pow_succ_r in Hfuel by lia.
        assert (0 < 2 ^ Z.of_nat fuel) by (apply Z.pow_pos_nonneg; lia).
        assert (0 < Z.abs x) by lia. nia.
      * exists (Z.succ j). rewrite Z.pow_succ_r by done.
        replace (x * (base * base ^ j)) with (x * base * base ^ j) by lia.
        split; [lia |]. split; [done |]. split; [done |].
        intros i Hi. destruct (Z.eq_dec i 0) as [-> | Hne].
        -- by rewrite Z.mul_1_r.
        -- replace i with (Z.succ (i - 1)) by lia.
           rewrite Z.pow_succ_r by lia.
           replace (x * (base * base ^ (i - 1)))
             with (x * base * base ^ (i - 1)) by lia.
           apply Hbelow. lia.
    + apply Z.ltb_ge in Hlt. exists 0. rewrite Z.mul_1_r.
      repeat split; [done | lia | lia].
Qed.

(** More rounds than needed change nothing. *)
Lemma slowLoop_more_fuel base bound fuel x r :
  slowLoop fuel base bound x = Some r ->
  forall fuel', (fuel <= fuel')%nat -> slowLoop fuel' base bound x = Some r.
Proof.
  revert x. induction fuel as [| fuel IH]; intros x Hrun fuel' Hle.
  - simpl in Hrun. destruct (magnitude x <? magnitude bound) eqn:Hlt; [done |].
    destruct fuel'; simpl; by rewrite Hlt.
  - destruct fuel' as [| fuel']; [lia |]. simpl in *.
    destruct (magnitude x <? magnitude bound); [| done].
    apply IH; [done | lia].
Qed.

Lemma log2_fuel bound :
  Z.abs bound < 2 ^ Z.of_nat (S (Z.to_nat (Z.log2 (Z.abs bound)))).
Proof.
  rewrite Nat2Z.inj_succ, Z2Nat.id by apply Z.log2_nonneg.
  destruct (Z.eq_dec (Z.abs bound) 0) as [-> | Hne]; [done |].
  apply Z.log2_spec. lia.
Qed.

(** The loop of [_slowIsPower] from [x = 1]. *)
Lemma slowLoop_from_one base bound :
  2 <= Z.abs base ->
  exists j, 0 <= j /\
    slowLoop (S (Z.to_nat (Z.log2 (magnitude bound)))) base bound 1 =
      Some (base ^ j) /\
    Z.abs bound <= Z.abs base ^ j /\
    (forall i, 0 <= i < j -> Z.abs base ^ i < Z.abs bound).
Proof.
  intros Hbase.
  destruct (slowLoop_finish base bound Hbase
              (S (Z.to_nat (Z.log2 (magnitude bound)))) 1)
    as (j & Hj & Hrun & Hge & Hbelow); [done | |].
  { pose proof (log2_fuel bound). unfold magnitude. lia. }
  exists j. rewrite Z.mul_1_l in Hrun, Hge. rewrite abs_pow in Hge by done.
  split; [done |]. split; [done |]. split; [done |].
  intros i Hi. specialize (Hbelow i Hi).
  by rewrite Z.mul_1_l, abs_pow in Hbelow by lia.
Qed.

Lemma isMultiple_spec self base :
  base <> 0 -> isMultiple self base = true <-> self = base * Z.quot self base.
Proof.
  intros Hbase. unfold isMultiple.
  rewrite (proj2 (Z.eqb_neq _ _)) by done. rewrite Z.eqb_eq.
  pose proof (Z.quot_rem' self base). lia.
Qed.

Lemma slowIsPower_returns self base :
  exists b, _slowIsPower self base = Some b /\
            (b = true <-> isPowerOf base self).
Proof.
  unfold _slowIsPower.
  destruct (self =? 1) eqn:H1.
  { apply Z.eqb_eq in H1 as ->. exists true. split; [done |].
    split; [| done]. intros _. by exists 0. }
  apply Z.eqb_neq in H1.
  destruct (magnitude base <=? 1) eqn:Hsmall; unfold magnitude in Hsmall.
  { apply Z.leb_le in Hsmall. exists (self =? base). split; [done |].
    rewrite Z.eqb_eq. split.
    - intros ->. exists 1. split; [lia |]. by rewrite Z.pow_1_r.
    - intros (n & Hn & ->).
      assert (n = 0 \/ 0 < n) as [-> | Hpos] by lia; [done |].
      assert (base = 0 \/ base = 1 \/ base = -1) as [-> | [-> | ->]] by lia.
      + by rewrite Z.pow_0_l.
      + by rewrite Z.pow_1_l in * by lia.
      + change (-1) with (Z.opp 1) in *.
        destruct (Z.Even_or_Odd n) as [He | Ho].
        * rewrite Z.pow_opp_even, Z.pow_1_l in H1 by (done || lia). done.
        * by rewrite Z.pow_opp_odd, Z.pow_1_l by (done || lia). }
  apply Z.leb_gt in Hsmall.
  destruct (isMultiple self base) eqn:Hmul; cbn [negb].
  2:{ exists false. split; [done |]. split; [done |].
      intros (n & Hn & ->).
      assert (n = 0 \/ 0 < n) as [-> | Hpos] by lia; [done |].
      assert (isMultiple (base ^ n) base = true) as Hyes; [| congruence].
      apply isMultiple_spec; [lia |].
      replace n with (Z.succ (n - 1)) by lia.
      rewrite Z.pow_succ_r by lia.
      rewrite (Z.mul_comm base), Z.quot_mul by lia. lia. }
  apply isMultiple_spec in Hmul; [| lia].
  set (bound := Z.quot self base) in *.
  destruct (slowLoop_from_one base bound) as (j & Hj & -> & Hge & Hbelow);
    [lia |].
  simpl. exists (base ^ j =? bound). split; [done |].
  rewrite Z.eqb_eq. split.
  - intros Heq. exists (Z.succ j). split; [lia |].
    rewrite Z.pow_succ_r by done. lia.
  - intros (n & Hn & Hself).
    assert (n = 0 \/ 0 < n) as [-> | Hpos] by lia; [done |].
    assert (bound = base ^ (n - 1)) as Hbound.
    { replace n with (Z.succ (n - 1)) in Hself by lia.
      rewrite Z.pow_succ_r in Hself by lia.
      apply (Z.mul_reg_l _ _ base); [lia |]. lia. }
    rewrite Hbound. f_equal. rewrite Hbound, abs_pow in Hge by lia.
    apply Z.pow_le_mono_r_iff in Hge; [| lia | lia].
    destruct (Z.eq_dec j (n - 1)) as [Heq | Hne]; [done |].
    specialize (Hbelow (n - 1) ltac:(lia)).
    rewrite Hbound, abs_pow in Hbelow by lia. lia.
Qed.

(** X7: [_slowIsPower] returns (its loop terminates), and answers true
    exactly when [self] is a power of [base] with a natural exponent; [base]
    may be zero or negative. *)
Theorem slowIsPower_spec self base :
  exists b, _slowIsPower self base = Some b /\
            (b = true <-> isPowerOf base self).
Proof. exact (slowIsPower_returns self base). Qed.

(** X8: the loop of [_slowIsPower] never leaves the range of [self]: every
    value that [x] takes, the one it stops at included, is a power of
    [base] whose magnitude is strictly below that of a nonzero [self]; so it
    lies in every signed range and (for a base that is not negative) every
    unsigned range that holds [self], and [x *= base] cannot overflow. *)
Theorem slowLoop_in_range self base x :
  2 <= Z.abs base -> self <> 0 -> isMultiple self base = true ->
  slowLoop (S (Z.to_nat (Z.log2 (magnitude (Z.quot self base)))))
           base (Z.quot self base) 1 = Some x ->
  exists j, 0 <= j /\ x = base ^ j /\
    forall i, 0 <= i <= j ->
      Z.abs (base ^ i) < Z.abs self /\
      (forall w, 0 < w -> - 2 ^ (w - 1) <= self < 2 ^ (w - 1) ->
                 - 2 ^ (w - 1) <= base ^ i < 2 ^ (w - 1)) /\
      (forall w, 0 <= base -> 0 <= self < 2 ^ w -> 0 <= base ^ i < 2 ^ w).
Proof.
  intros Hbase Hself Hmul Hrun.
  apply isMultiple_spec in Hmul; [| lia].
  set (bound := Z.quot self base) in *.
  destruct (slowLoop_from_one base bound) as (j & Hj & Hrun' & Hge & Hbelow);
    [lia |].
  rewrite Hrun' in Hrun. injection Hrun as <-.
  exists j. split; [done |]. split; [done |]. intros i Hi.
  assert (bound <> 0) by (intros Hz; rewrite Hz in Hmul; lia).
  assert (Z.abs self = Z.abs base * Z.abs bound) as Habs
    by (rewrite <- Z.abs_mul; congruence).
  assert (Z.abs (base ^ i) < Z.abs self) as Hstrict.
  { rewrite abs_pow, Habs by lia.
    assert (i = 0 \/ 0 < i) as [-> | Hpos] by lia.
    - simpl. nia.
    - specialize (Hbelow (i - 1) ltac:(lia)).
      replace i with (Z.succ (i - 1)) by lia.
      rewrite Z.pow_succ_r by lia. nia. }
  split; [done |]. split.
  - intros w Hw Hrange. lia.
  - intros w Hbase0 Hrange.
    assert (0 <= base ^ i) by (apply Z.pow_nonneg; lia). lia.
Qed.

(** *** Powers of ten *)

(** The switch of [_isPowerOfTen], by ranges of the exponent. *)
Lemma _isPowerOfTen_cases bitWidth selfBitWidth self :
  _isPowerOfTen bitWidth selfBitWidth self =
  let exponent := trailingZeroBitCount selfBitWidth self in
  if (0 <=? exponent) && (exponent <=? 19)
  then Some (self =? 10 ^ exponent)
  else _isPowerOfTen_default bitWidth selfBitWidth self exponent.
Proof.
  unfold _isPowerOfTen. cbv zeta.
  generalize (trailingZeroBitCount selfBitWidth self) as e. intros e.
  destruct e as [| p | p]; [reflexivity | | reflexivity].
  do 5 (try (destruct p as [p | p |]; try reflexivity)).
Qed.

Lemma land_15 z : Z.land z 15 = z mod 16.
Proof. change 15 with (Z.ones 4). by rewrite Z.land_ones. Qed.

Lemma mod_16_word bitWidth z :
  4 <= bitWidth -> (z mod 2 ^ bitWidth) mod 16 = z mod 16.
Proof.
  intros Hw. apply Z.mod_mod_divide.
  exists (2 ^ (bitWidth - 4)). change 16 with (2 ^ 4).
  rewrite <- Z.pow_add_r by lia. f_equal. lia.
Qed.

Lemma _lowWord_land_15 bitWidth z :
  4 <= bitWidth -> Z.land (_lowWord bitWidth z) 15 = z mod 16.
Proof. intros. unfold _lowWord. by rewrite land_15, mod_16_word. Qed.

Lemma Int_truncatingIfNeeded_mod_16 bitWidth z :
  4 <= bitWidth -> Int_truncatingIfNeeded bitWidth z mod 16 = z mod 16.
Proof.
  intros Hw. unfold Int_truncatingIfNeeded, Int_bitPattern.
  destruct (_ <? _).
  - by apply mod_16_word.
  - replace (2 ^ bitWidth) with (2 ^ (bitWidth - 4) * 16) at 2.
    + rewrite <- Z.add_opp_r, <- Z.mul_opp_l, Z_mod_plus_full.
      by apply mod_16_word.
    + change 16 with (2 ^ 4). rewrite <- Z.pow_add_r by lia. f_equal. lia.
Qed.

Lemma lor_1_even z : z mod 2 = 0 -> Z.lor z 1 = z + 1.
Proof.
  intros Heven.
  assert (z = 2 * (z / 2)) as -> by (pose proof (Z.div_mod z 2); lia).
  apply Z.bits_inj'. intros n Hn. rewrite Z.lor_spec.
  destruct (Z.eq_dec n 0) as [-> | Hne].
  - by rewrite Z.testbit_odd_0, Z.testbit_even_0.
  - replace n with (Z.succ (n - 1)) by lia.
    rewrite Z.testbit_odd_succ, Z.testbit_even_succ by lia.
    change 1 with (2 * 0 + 1).
    rewrite Z.testbit_odd_succ, Z.bits_0 by lia. apply orb_false_r.
Qed.

(** The low four bits of [5 ^ n]: the last two bits of [n], then 01. *)
Lemma pow5_mod_16 n : 0 <= n -> 5 ^ n mod 16 = (4 * n + 1) mod 16.
Proof.
  revert n. apply natlike_ind; [done |].
  intros n Hn IH. rewrite Z.pow_succ_r by done.
  rewrite <- Z.mul_mod_idemp_r, IH, Z.mul_mod_idemp_r by lia.
  replace (5 * (4 * n + 1)) with (4 * Z.succ n + 1 + n * 16) by lia.
  by rewrite Z_mod_plus_full.
Qed.

Lemma pow10_split n : 0 <= n -> 10 ^ n = 2 ^ n * 5 ^ n.
Proof. intros. by rewrite <- Z.pow_mul_l. Qed.

Lemma pow5_odd n : 0 <= n -> exists q, 0 <= q /\ 5 ^ n = 2 * q + 1.
Proof.
  intros Hn. exists (5 ^ n / 2).
  assert (0 < 5 ^ n) by (apply Z.pow_pos_nonneg; lia).
  assert (5 ^ n mod 2 = 1).
  { clear H. revert n Hn. apply natlike_ind; [done |].
    intros n Hn IH. rewrite Z.pow_succ_r by done.
    by rewrite <- Z.mul_mod_idemp_r, IH by lia. }
  split; [apply Z.div_pos; lia |].
  pose proof (Z.div_mod (5 ^ n) 2). lia.
Qed.

Lemma trailingZeroBitCount_pow10 selfBitWidth n :
  0 <= n -> trailingZeroBitCount selfBitWidth (10 ^ n) = n.
Proof.
  intros Hn. destruct (pow5_odd n Hn) as (q & Hq & Hodd).
  rewrite pow10_split, Hodd by done.
  by apply trailingZeroBitCount_pow2_mul.
Qed.

Lemma pow10_quick_check bitWidth n :
  4 <= bitWidth -> 0 <= n ->
  Z.land (_lowWord bitWidth (Z.shiftr (10 ^ n) n)) 15 =
  Z.land (Z.lor (Int_truncatingIfNeeded bitWidth (Z.shiftl n 2)) 1) 15.
Proof.
  intros Hw Hn. rewrite _lowWord_land_15, land_15 by done.
  rewrite Z.shiftr_div_pow2, pow10_split by done.
  rewrite Z.mul_comm, Z.div_mul by (apply Z.pow_nonzero; lia).
  rewrite pow5_mod_16 by done.
  pose proof (Int_truncatingIfNeeded_mod_16 bitWidth (Z.shiftl n 2) Hw) as Ht.
  rewrite Z.shiftl_mul_pow2 in Ht |- * by lia. change (2 ^ 2) with 4 in *.
  set (t := Int_truncatingIfNeeded bitWidth (n * 4)) in *.
  assert (t mod 2 = 0) as Heven.
  { rewrite <- (Z.mod_mod_divide t 16 2) by (exists 8; lia).
    rewrite Ht, Z.mod_mod_divide by (exists 8; lia).
    replace (n * 4) with (0 + (2 * n) * 2) by lia.
    by rewrite Z_mod_plus_full. }
  rewrite lor_1_even by done.
  rewrite <- (Z.add_mod_idemp_l t 1 16), Ht, Z.add_mod_idemp_l by lia.
  f_equal. lia.
Qed.

(** X9: every power of ten passes the quick check of the bit pattern in
    [_isPowerOfTen] (after the trailing zeros come 01, then the last two
    bits of the exponent), so the check rejects no power of ten. *)
Theorem isPowerOfTen_quick_check_sound bitWidth n :
  4 <= bitWidth -> 0 <= n ->
  Z.land (_lowWord bitWidth (Z.shiftr (10 ^ n) n)) 15 =
  Z.land (Z.lor (Int_truncatingIfNeeded bitWidth (Z.shiftl n 2)) 1) 15.
Proof. exact (pow10_quick_check bitWidth n). Qed.

Lemma isPowerOfTen_returns bitWidth selfBitWidth self :
  4 <= bitWidth -> self < 2 ^ selfBitWidth ->
  exists b, _isPowerOfTen bitWidth selfBitWidth self = Some b /\
            (b = true <-> isPowerOf 10 self).
Proof.
  intros Hw Hfits. rewrite _isPowerOfTen_cases. cbv zeta.
  destruct (slowIsPower_returns self 10) as (bs & Hslow & Hbs).
  assert (forall n, 0 <= n -> self = 10 ^ n ->
            trailingZeroBitCount selfBitWidth self = n) as Htz
    by (intros n Hn ->; by apply trailingZeroBitCount_pow10).
  destruct ((0 <=? _) && (_ <=? 19)) eqn:Hsmall.
  - apply andb_true_iff in Hsmall as [H0 H19].
    apply Z.leb_le in H0. eexists. split; [done |].
    rewrite Z.eqb_eq. split.
    + intros Heq. eexists. split; [exact H0 | exact Heq].
    + intros (n & Hn & Hself). by rewrite (Htz n Hn Hself) at 1.
  - unfold _isPowerOfTen_default.
    destruct (selfBitWidth <=? 64) eqn:Hnarrow.
    + apply Z.leb_le in Hnarrow. exists false. split; [done |].
      split; [done |]. intros (n & Hn & Hself).
      rewrite (Htz n Hn Hself) in Hsmall.
      apply andb_false_iff in Hsmall as [H | H];
        [apply Z.leb_gt in H; lia | apply Z.leb_gt in H].
      assert (2 ^ selfBitWidth <= 2 ^ 64)
        by (apply Z.pow_le_mono_r; lia).
      assert (10 ^ 20 <= 10 ^ n) by (apply Z.pow_le_mono_r; lia).
      assert (2 ^ 64 < 10 ^ 20) by done. lia.
    + destruct (negb _) eqn:Hguard.
      * exists false. split; [done |]. split; [done |].
        intros (n & Hn & Hself). apply negb_true_iff, Z.eqb_neq in Hguard.
        rewrite (Htz n Hn Hself), Hself in Hguard.
        by rewrite pow10_quick_check in Hguard.
      * exists bs. done.
Qed.

(** X10: [_isPowerOfTen] returns, and answers true exactly for the powers
    of ten, on every value that fits its own bit width. *)
Theorem isPowerOfTen_spec bitWidth selfBitWidth self :
  4 <= bitWidth -> self < 2 ^ selfBitWidth ->
  exists b, _isPowerOfTen bitWidth selfBitWidth self = Some b /\
            (b = true <-> isPowerOf 10 self).
Proof. exact (isPowerOfTen_returns bitWidth selfBitWidth self). Qed.

(** *** The dispatch on the value (performance.swift) *)

Lemma Performance_isPower_slow : Performance._isPower = _slowIsPower.
Proof. reflexivity. Qed.

Lemma Performance_isPowerOfTen : Performance._isPowerOfTen = _isPowerOfTen.
Proof. reflexivity. Qed.

Lemma Performance_isPowerOfTwo_spec self :
  Performance._isPowerOfTwo self = true <-> isPowerOfTwo self.
Proof.
  unfold Performance._isPowerOfTwo. destruct (0 <? self) eqn:Hpos.
  - apply Z.ltb_lt in Hpos. rewrite Z.eqb_eq. by apply land_pred_zero.
  - apply Z.ltb_ge in Hpos. split; [done |].
    intros H. apply isPowerOfTwo_pos in H. lia.
Qed.

Lemma Performance_isPower_returns bitWidth selfBitWidth self base :
  4 <= bitWidth -> self < 2 ^ selfBitWidth ->
  exists b, Performance.isPower bitWidth selfBitWidth self base = Some b /\
            (b = true <-> isPowerOf base self).
Proof.
  intros Hw Hfits. unfold Performance.isPower.
  destruct (base =? 2) eqn:H2.
  { apply Z.eqb_eq in H2 as ->. eexists. split; [done |].
    apply Performance_isPowerOfTwo_spec. }
  destruct (base =? 10) eqn:H10.
  { apply Z.eqb_eq in H10 as ->. rewrite Performance_isPowerOfTen.
    by apply isPowerOfTen_returns. }
  rewrite Performance_isPower_slow. apply slowIsPower_returns.
Qed.

(** X14: [isPower(of:)] of performance.swift returns on every value that
    fits its bit width, and answers true exactly when [self] is a power of
    [base] with a natural exponent; [base] may be zero or negative. *)
Theorem Performance_isPower_spec bitWidth selfBitWidth self base :
  4 <= bitWidth -> self < 2 ^ selfBitWidth ->
  exists b, Performance.isPower bitWidth selfBitWidth self base = Some b /\
            (b = true <-> isPowerOf base self).
Proof.
  exact (Performance_isPower_returns bitWidth selfBitWidth self base).
Qed.

Lemma bool_eq_by_iff (b1 b2 : bool) (P : Prop) :
  (b1 = true <-> P) -> (b2 = true <-> P) -> b1 = b2.
Proof. destruct b1, b2; intuition congruence. Qed.

(** X23: the three tests on the value are interchangeable: the classic
    test, the count-trailing-zeros test and the population-count test give
    the same answer on every integer. *)
Theorem isPowerOfTwo_tests_agree selfBitWidth self :
  _isPowerOfTwo_cttz selfBitWidth self = Performance._isPowerOfTwo self /\
  _isPowerOfTwo_ctpop selfBitWidth self = Performance._isPowerOfTwo self.
Proof.
  split; apply (bool_eq_by_iff _ _ (isPowerOfTwo self));
    auto using cttz_iff, ctpop_iff, Performance_isPowerOfTwo_spec.
Qed.

(** *** The dispatch on the words *)

Section WordsDispatch.

Variable bitWidth : Z.
Hypothesis bitWidth_pos : 0 < bitWidth.

Lemma words_returns x :
  wellFormed bitWidth x -> words x <> [] ->
  exists b, _isPowerOfTwo_words bitWidth x = Some b.
Proof.
  destruct x as [s ws]. unfold wellFormed. simpl. intros Hwf Hne.
  destruct ws as [| w [| w2 rest]]; [done | |].
  - rewrite words_single by (by apply Forall_inv in Hwf). by eexists.
  - unfold _isPowerOfTwo_words. cbn [words isSigned].
    rewrite bool_decide_eq_false_2 by done.
    replace (length (w :: w2 :: rest) =? 1)%nat with false by done.
    destruct (_ && _); [by eexists |].
    destruct (scanWords_fresh bitWidth bitWidth_pos _ Hwf) as (b & -> & _).
    by eexists.
Qed.

(** X3: on well-formed words the words test traps exactly when the
    precondition fails, that is when there is no word; the subtractions in
    it never overflow. *)
Theorem isPowerOfTwo_words_trap x :
  wellFormed bitWidth x ->
  _isPowerOfTwo_words bitWidth x = None <-> words x = [].
Proof.
  intros Hwf. split.
  - intros Hnone. destruct (words x) as [| w ws] eqn:Hws; [done |].
    destruct (words_returns x Hwf) as (b & Hb); [by rewrite Hws |].
    congruence.
  - destruct x as [s ws]. simpl. by intros ->.
Qed.

Lemma words_correct x :
  wellFormed bitWidth x -> words x <> [] -> ~ isSignedMin bitWidth x ->
  exists b, _isPowerOfTwo_words bitWidth x = Some b /\
            (b = true <-> isPowerOfTwo (toZ bitWidth x)).
Proof.
  intros Hwf Hne Hmin. eexists. split.
  - by apply words_agrees_with_classic.
  - apply classic_spec.
Qed.

(** X1: the classic test answers true exactly for the positive powers of
    two. *)
Theorem isPowerOfTwo_classic_correct x :
  _isPowerOfTwo_classic bitWidth x = true <-> isPowerOfTwo (toZ bitWidth x).
Proof. exact (classic_spec bitWidth x). Qed.

(** X2: on well-formed words, apart from the signed minimum, the words test
    returns and answers true exactly for the positive powers of two. *)
Theorem isPowerOfTwo_words_correct x :
  wellFormed bitWidth x -> words x <> [] -> ~ isSignedMin bitWidth x ->
  exists b, _isPowerOfTwo_words bitWidth x = Some b /\
            (b = true <-> isPowerOfTwo (toZ bitWidth x)).
Proof. exact (words_correct x). Qed.

Lemma rem_multiple s b :
  0 <= s -> 0 < b -> Z.rem s b = 0 <-> exists n, 0 <= n /\ s = b * n.
Proof.
  intros Hs Hb. rewrite Z.rem_mod_nonneg by lia. split.
  - intros Hmod. exists (s / b). split; [apply Z.div_pos; lia |].
    pose proof (Z.div_mod s b). lia.
  - intros (n & Hn & ->). rewrite Z.mul_comm. by apply Z_mod_mult.
Qed.

(** Among powers of two, divisibility of the exponents decides. *)
Lemma isMultiple_exponents s b :
  0 <= s -> 0 <= b ->
  isMultiple s b = true <-> isPowerOf (2 ^ b) (2 ^ s).
Proof.
  intros Hs Hb. unfold isMultiple, isPowerOf.
  assert (forall n, 0 <= n -> (2 ^ s = (2 ^ b) ^ n <-> s = b * n)) as Hexp.
  { intros n Hn. rewrite <- Z.pow_mul_r by done. split; [| by intros ->].
    intros H. apply (Z.pow_inj_r 2); [lia | lia | nia | done]. }
  destruct (b =? 0) eqn:Hb0.
  - apply Z.eqb_eq in Hb0 as ->. rewrite Z.eqb_eq. split.
    + intros ->. by exists 0.
    + intros (n & Hn & H). apply Hexp in H; lia.
  - apply Z.eqb_neq in Hb0. rewrite Z.eqb_eq, rem_multiple by lia.
    split; intros (n & Hn & H); exists n; (split; [done |]); by apply Hexp.
Qed.

Lemma isPowerOf_powerOfTwo_returns selfBitWidth baseBitWidth self base :
  wellFormed bitWidth self -> words self <> [] -> ~ isSignedMin bitWidth self ->
  wellFormed bitWidth base -> words base <> [] -> ~ isSignedMin bitWidth base ->
  (~ isPowerOfTwo (toZ bitWidth base) ->
   _isPowerOf_powerOfTwo bitWidth selfBitWidth baseBitWidth self base = None) /\
  (isPowerOfTwo (toZ bitWidth base) ->
   exists b,
     _isPowerOf_powerOfTwo bitWidth selfBitWidth baseBitWidth self base = Some b /\
     (b = true <-> isPowerOf (toZ bitWidth base) (toZ bitWidth self))).
Proof.
  intros Hwf Hne Hmin Hwfb Hneb Hminb. unfold _isPowerOf_powerOfTwo.
  destruct (words_correct base Hwfb Hneb Hminb) as (pb & -> & Hpb).
  destruct (words_correct self Hwf Hne Hmin) as (ps & -> & Hps).
  simpl. split.
  - intros Hno. destruct pb; [| done]. destruct Hno. by apply Hpb.
  - intros Hyes. apply Hpb in Hyes as ->. simpl.
    assert (isPowerOfTwo (toZ bitWidth base)) as (eb & Heb & Hbase)
      by by apply Hpb.
    destruct ps; simpl.
    + assert (isPowerOfTwo (toZ bitWidth self)) as (es & Hes & Hself)
        by by apply Hps.
      eexists. split; [done |]. rewrite Hbase, Hself.
      rewrite !trailingZeroBitCount_pow2 by done.
      by apply isMultiple_exponents.
    + exists false. split; [done |]. split; [done |].
      intros (n & Hn & Hself).
      assert (isPowerOfTwo (toZ bitWidth self)) as Hpow; [| by apply Hps in Hpow].
      exists (eb * n). split; [nia |].
      by rewrite Hself, Hbase, Z.pow_mul_r.
Qed.

(** X11: [_isPowerOf(powerOfTwo:)] on well-formed values other than the
    signed minimum: it traps when [base] is no power of two (the
    precondition), and otherwise it answers true exactly when [self] is a
    power of [base]. *)
Theorem isPowerOf_powerOfTwo_spec selfBitWidth baseBitWidth self base :
  wellFormed bitWidth self -> words self <> [] -> ~ isSignedMin bitWidth self ->
  wellFormed bitWidth base -> words base <> [] -> ~ isSignedMin bitWidth base ->
  (~ isPowerOfTwo (toZ bitWidth base) ->
   _isPowerOf_powerOfTwo bitWidth selfBitWidth baseBitWidth self base = None) /\
  (isPowerOfTwo (toZ bitWidth base) ->
   exists b,
     _isPowerOf_powerOfTwo bitWidth selfBitWidth baseBitWidth self base = Some b /\
     (b = true <-> isPowerOf (toZ bitWidth base) (toZ bitWidth self))).
Proof.
  exact (isPowerOf_powerOfTwo_returns selfBitWidth baseBitWidth self base).
Qed.

Lemma isPower_returns selfBitWidth baseBitWidth self base :
  4 <= bitWidth ->
  wellFormed bitWidth self -> words self <> [] -> ~ isSignedMin bitWidth self ->
  wellFormed bitWidth base -> words base <> [] -> ~ isSignedMin bitWidth base ->
  toZ bitWidth self < 2 ^ selfBitWidth ->
  exists b, isPower bitWidth selfBitWidth baseBitWidth self base = Some b /\
            (b = true <-> isPowerOf (toZ bitWidth base) (toZ bitWidth self)).
Proof.
  intros Hw Hwf Hne Hmin Hwfb Hneb Hminb Hfits. unfold isPower.
  destruct (toZ bitWidth base =? 2) eqn:H2.
  { apply Z.eqb_eq in H2 as ->. by apply words_correct. }
  destruct (toZ bitWidth base =? 10) eqn:H10.
  { apply Z.eqb_eq in H10 as ->. by apply isPowerOfTen_returns. }
  destruct (words_correct base Hwfb Hneb Hminb) as (pb & Hrun & Hpb).
  rewrite Hrun. simpl. destruct pb.
  - apply (isPowerOf_powerOfTwo_returns selfBitWidth baseBitWidth self base);
      try done. by apply Hpb.
  - apply slowIsPower_returns.
Qed.

(** X12: [isPower(of:)] on well-formed values other than the signed minimum
    returns, and answers true exactly when [self] is a power of [base]. *)
Theorem isPower_spec selfBitWidth baseBitWidth self base :
  4 <= bitWidth ->
  wellFormed bitWidth self -> words self <> [] -> ~ isSignedMin bitWidth self ->
  wellFormed bitWidth base -> words base <> [] -> ~ isSignedMin bitWidth base ->
  toZ bitWidth self < 2 ^ selfBitWidth ->
  exists b, isPower bitWidth selfBitWidth baseBitWidth self base = Some b /\
            (b = true <-> isPowerOf (toZ bitWidth base) (toZ bitWidth self)).
Proof. exact (isPower_returns selfBitWidth baseBitWidth self base). Qed.

Lemma isPowerOfTen_total selfBitWidth self :
  exists b, _isPowerOfTen bitWidth selfBitWidth self = Some b.
Proof.
  rewrite _isPowerOfTen_cases. cbv zeta.
  destruct (_ && _); [by eexists |]. unfold _isPowerOfTen_default.
  destruct (_ <=? 64); [by eexists |]. destruct (negb _); [by eexists |].
  destruct (slowIsPower_returns self 10) as (b & -> & _). by eexists.
Qed.

(** X24: [isPower(of:)] never traps on well-formed values that have words,
    the signed minimum included: it establishes the precondition of
    [_isPowerOf(powerOfTwo:)] before the call, and every loop stops. *)
Theorem isPower_never_traps selfBitWidth baseBitWidth self base :
  wellFormed bitWidth self -> words self <> [] ->
  wellFormed bitWidth base -> words base <> [] ->
  exists b, isPower bitWidth selfBitWidth baseBitWidth self base = Some b.
Proof.
  intros Hwf Hne Hwfb Hneb. unfold isPower.
  destruct (words_returns self Hwf Hne) as (ps & Hps).
  destruct (words_returns base Hwfb Hneb) as (pb & Hpb).
  destruct (_ =? 2); [by eexists |].
  destruct (_ =? 10); [apply isPowerOfTen_total |].
  rewrite Hpb. simpl. destruct pb.
  - unfold _isPowerOf_powerOfTwo. rewrite Hpb, Hps. simpl.
    destruct ps; by eexists.
  - destruct (slowIsPower_returns (toZ bitWidth self) (toZ bitWidth base))
      as (b & -> & _). by eexists.
Qed.

(** X25: the two versions of [isPower(of:)] agree: on well-formed values
    other than the signed minimum, the dispatch on the words gives what the
    dispatch on the value (performance.swift) gives. *)
Theorem isPower_agrees_with_Performance selfBitWidth baseBitWidth self base :
  4 <= bitWidth ->
  wellFormed bitWidth self -> words self <> [] -> ~ isSignedMin bitWidth self ->
  wellFormed bitWidth base -> words base <> [] -> ~ isSignedMin bitWidth base ->
  toZ bitWidth self < 2 ^ selfBitWidth ->
  isPower bitWidth selfBitWidth baseBitWidth self base =
  Performance.isPower bitWidth selfBitWidth
    (toZ bitWidth self) (toZ bitWidth base).
Proof.
  intros Hw Hwf Hne Hmin Hwfb Hneb Hminb Hfits.
  destruct (isPower_returns selfBitWidth baseBitWidth self base)
    as (b1 & -> & H1); try done.
  destruct (Performance_isPower_returns bitWidth selfBitWidth
              (toZ bitWidth self) (toZ bitWidth base))
    as (b2 & -> & H2); try done.
  f_equal. by apply (bool_eq_by_iff _ _ _ H1 H2).
Qed.

(** X13: the error of the words test reaches [isPower(of:)]: for the signed
    minimum, [isPower(of: 2)] answers true although the value is negative
    and so no power of two. *)
Theorem isPower_of_two_signed_min selfBitWidth baseBitWidth s :
  3 <= bitWidth ->
  let self := {| isSigned := true; words := [2 ^ (bitWidth - 1)] |} in
  let base := {| isSigned := s; words := [2] |} in
  toZ bitWidth base = 2 /\
  isPower bitWidth selfBitWidth baseBitWidth self base = Some true /\
  ~ isPowerOf 2 (toZ bitWidth self).
Proof.
  intros Hw self base.
  destruct (words_accepts_signed_min bitWidth bitWidth_pos)
    as (_ & HtoZ & Hwords & _). fold self in HtoZ, Hwords.
  assert (2 ^ 2 <= 2 ^ (bitWidth - 1)) by (apply Z.pow_le_mono_r; lia).
  assert (toZ bitWidth base = 2) as Hbase.
  { unfold toZ, base, Int_bitPattern. cbn [words isSigned List.last length].
    rewrite (proj2 (Z.ltb_lt 2 _)) by lia.
    rewrite andb_false_r. simpl. lia. }
  split; [done |]. split.
  - unfold isPower. by rewrite Hbase.
  - intros (n & Hn & Hself). rewrite HtoZ in Hself.
    assert (0 < 2 ^ n) by (apply Z.pow_pos_nonneg; lia). lia.
Qed.

End WordsDispatch.

(** *** The test on the prototype big integer *)

Section BigInt.

Variable bitWidth : Z.
Hypothesis bitWidth_pos : 0 < bitWidth.

(** The scan of the words test on words that end in a nonzero word: true
    exactly when every word below is zero and the last is a power of two. *)
Lemma scanWords_snoc init w :
  Forall (isUInt bitWidth) init -> isUInt bitWidth w -> w <> 0 ->
  scanWords (init ++ [w]) true = Some false /\
  scanWords (init ++ [w]) false =
    Some (negb (existsb (fun w => negb (w =? 0)) init) &&
          (Z.land w (w - 1) =? 0)).
Proof.
  intros Hinit [Hw0 Hw1] Hne.
  assert (UInt_sub w 1 = Some (w - 1)) as Hsub.
  { unfold UInt_sub. by rewrite (proj2 (Z.ltb_ge w 1)) by lia. }
  induction Hinit as [| a init [Ha0 Ha1] _ [IHt IHf]]; simpl.
  - rewrite (proj2 (Z.eqb_neq w 0)) by done. rewrite Hsub. simpl.
    split; [done |]. by destruct (Z.land w (w - 1) =? 0).
  - destruct (a =? 0) eqn:Ha; simpl; [done |].
    apply Z.eqb_neq in Ha. split; [done |].
    unfold UInt_sub. rewrite (proj2 (Z.ltb_ge a 1)) by lia. simpl.
    destruct (Z.land a (a - 1) =? 0); simpl; [by rewrite IHt | done].
Qed.

Lemma snoc_nonempty {A} (l : list A) (d : A) :
  l <> [] -> l = take (length l - 1) l ++ [List.last l d].
Proof.
  intros Hne. destruct (exists_last Hne) as (init & x & ->).
  rewrite List.last_last, length_app. simpl.
  replace (length init + 1 - 1)%nat with (length init) by lia.
  by rewrite take_app_length.
Qed.

(** X15: on a well-formed big integer (words in range, no trailing zero word)
    [_isPowerOfTwo_BigInt] does not trap, and answers true exactly for the
    positive powers of two. *)
Theorem isPowerOfTwo_BigInt_spec x :
  Forall (isUInt bitWidth) (_data x) ->
  (_data x <> [] -> List.last (_data x) 0 <> 0) ->
  exists b, _isPowerOfTwo_BigInt x = Some b /\
            (b = true <-> isPowerOfTwo (BigInt_toZ bitWidth x)).
Proof.
  destruct x as [data neg]. simpl. intros Hwf Hlast.
  pose proof (magnitudeOf_bounds bitWidth bitWidth_pos data Hwf) as [Hm _].
  unfold _isPowerOfTwo_BigInt, BigInt_toZ, isZero. cbn [_data isNegative].
  destruct (bool_decide (data = [])) eqn:Hempty.
  { apply bool_decide_eq_true in Hempty as ->. exists false.
    split; [done |]. split; [done |]. intros H. apply isPowerOfTwo_pos in H.
    destruct neg; simpl in H; lia. }
  apply bool_decide_eq_false in Hempty. specialize (Hlast Hempty).
  destruct neg; cbn [negb andb].
  { exists false. split; [done |]. split; [done |].
    intros H. apply isPowerOfTwo_pos in H. lia. }
  rewrite (proj2 (Z.ltb_ge _ 0)) by (destruct data; [done | simpl; lia]).
  pose proof (snoc_nonempty data 0 Hempty) as Hsplit.
  set (init := take (length data - 1) data) in *.
  set (w := List.last data 0) in *.
  assert (Forall (isUInt bitWidth) init /\ isUInt bitWidth w) as [Hinit Hw].
  { rewrite Hsplit in Hwf. apply Forall_app in Hwf as [? Hw].
    split; [done |]. by apply Forall_inv in Hw. }
  destruct (scanWords_snoc init w Hinit Hw Hlast) as [_ Hscan].
  destruct (scanWords_fresh bitWidth bitWidth_pos data Hwf) as (b & Hb & Hpow).
  rewrite Hsplit, Hscan in Hb at 1. injection Hb as Hb.
  rewrite (proj2 (Z.eqb_neq w 0)) by done.
  unfold UInt_sub. rewrite (proj2 (Z.ltb_ge w 1)) by (destruct Hw; lia).
  simpl. exists b. split; [| exact Hpow]. rewrite <- Hb.
  by destruct (existsb _ init).
Qed.


End BigInt.

(** *** The tests on concrete values *)

Section ConcreteValues.

Local Ltac words_ok :=
  repeat (constructor; [unfold isUInt; lia |]); constructor.

(** The unsigned two-word value [4 * 2 ^ 64]. *)
Lemma isPowerOfTwo_words_correct_witness :
  exists b,
    _isPowerOfTwo_words 64 {| isSigned := false; words := [0; 4] |} = Some b /\
    (b = true <->
     isPowerOfTwo (toZ 64 {| isSigned := false; words := [0; 4] |})).
Proof.
  apply (isPowerOfTwo_words_correct 64 ltac:(lia)
           {| isSigned := false; words := [0; 4] |}).
  - words_ok.
  - discriminate.
  - intros [Hs _]. discriminate Hs.
Defined.

Lemma isPowerOfTwo_words_trap_witness :
  _isPowerOfTwo_words 64 {| isSigned := true; words := [] |} = None <->
  words {| isSigned := true; words := [] |} = [].
Proof.
  apply (isPowerOfTwo_words_trap 64 ltac:(lia)
           {| isSigned := true; words := [] |}).
  words_ok.
Defined.

Lemma isPowerOfTwo_cttz_shift_in_range_witness :
  1 <= Z.shiftl 1 (trailingZeroBitCount 64 48) <= 48.
Proof. apply (isPowerOfTwo_cttz_shift_in_range 64 48). lia. Defined.

(** [Int8(-128).isPower(of: 2)]: the loop stops at 64, and 1, 2, ..., 64
    all lie in the range of [Int8]. *)
Lemma slowLoop_in_range_witness :
  slowLoop (S (Z.to_nat (Z.log2 (magnitude (Z.quot (-128) 2)))))
           2 (Z.quot (-128) 2) 1 = Some 64 /\
  exists j, 0 <= j /\ 64 = 2 ^ j /\
    forall i, 0 <= i <= j ->
      Z.abs (2 ^ i) < Z.abs (-128) /\
      (forall w, 0 < w -> - 2 ^ (w - 1) <= -128 < 2 ^ (w - 1) ->
                 - 2 ^ (w - 1) <= 2 ^ i < 2 ^ (w - 1)) /\
      (forall w, 0 <= 2 -> 0 <= -128 < 2 ^ w -> 0 <= 2 ^ i < 2 ^ w).
Proof.
  split; [reflexivity |].
  apply (slowLoop_in_range (-128) 2 64);
    [simpl; lia | lia | reflexivity | reflexivity].
Defined.

Lemma isPowerOfTen_quick_check_sound_witness :
  Z.land (_lowWord 64 (Z.shiftr (10 ^ 25) 25)) 15 =
  Z.land (Z.lor (Int_truncatingIfNeeded 64 (Z.shiftl 25 2)) 1) 15.
Proof. apply (isPowerOfTen_quick_check_sound 64 25); lia. Defined.

(** A power of ten beyond the switch, in a 128-bit type. *)
Lemma isPowerOfTen_spec_witness :
  exists b, _isPowerOfTen 64 128 (10 ^ 25) = Some b /\
            (b = true <-> isPowerOf 10 (10 ^ 25)).
Proof.
  apply (isPowerOfTen_spec 64 128 (10 ^ 25)); [lia | reflexivity].
Defined.

(** [64.isPower(of: 4)] on [Int]. *)
Lemma isPowerOf_powerOfTwo_spec_witness :
  exists b,
    _isPowerOf_powerOfTwo 64 64 64 {| isSigned := true; words := [64] |}
      {| isSigned := true; words := [4] |} = Some b /\
    (b = true <->
     isPowerOf (toZ 64 {| isSigned := true; words := [4] |})
               (toZ 64 {| isSigned := true; words := [64] |})).
Proof.
  apply (isPowerOf_powerOfTwo_spec 64 ltac:(lia) 64 64
           {| isSigned := true; words := [64] |}
           {| isSigned := true; words := [4] |}).
  - words_ok.
  - discriminate.
  - intros [_ Hw]. discriminate Hw.
  - words_ok.
  - discriminate.
  - intros [_ Hw]. discriminate Hw.
  - exists 2. split; [lia | reflexivity].
Defined.

(** [27.isPower(of: 3)] on [Int]. *)
Lemma isPower_spec_witness :
  exists b,
    isPower 64 64 64 {| isSigned := true; words := [27] |}
      {| isSigned := true; words := [3] |} = Some b /\
    (b = true <->
     isPowerOf (toZ 64 {| isSigned := true; words := [3] |})
               (toZ 64 {| isSigned := true; words := [27] |})).
Proof.
  apply (isPower_spec 64 ltac:(lia) 64 64
           {| isSigned := true; words := [27] |}
           {| isSigned := true; words := [3] |}).
  - lia.
  - words_ok.
  - discriminate.
  - intros [_ Hw]. discriminate Hw.
  - words_ok.
  - discriminate.
  - intros [_ Hw]. discriminate Hw.
  - reflexivity.
Defined.

(** [Int64.min.isPower(of: 2)]. *)
Lemma isPower_of_two_signed_min_witness :
  toZ 64 {| isSigned := true; words := [2] |} = 2 /\
  isPower 64 64 64 {| isSigned := true; words := [2 ^ (64 - 1)] |}
    {| isSigned := true; words := [2] |} = Some true /\
  ~ isPowerOf 2 (toZ 64 {| isSigned := true; words := [2 ^ (64 - 1)] |}).
Proof.
  apply (isPower_of_two_signed_min 64 ltac:(lia) 64 64 true). lia.
Defined.

(** [81.isPower(of: -3)]. *)
Lemma Performance_isPower_spec_witness :
  exists b, Performance.isPower 64 64 81 (-3) = Some b /\
            (b = true <-> isPowerOf (-3) 81).
Proof.
  apply (Performance_isPower_spec 64 64 81 (-3)); [lia | reflexivity].
Defined.

(** The big integer [4 * 2 ^ 128]. *)
Lemma isPowerOfTwo_BigInt_spec_witness :
  exists b,
    _isPowerOfTwo_BigInt {| _data := [0; 0; 4]; isNegative := false |} = Some b /\
    (b = true <->
     isPowerOfTwo (BigInt_toZ 64 {| _data := [0; 0; 4]; isNegative := false |})).
Proof.
  apply (isPowerOfTwo_BigInt_spec 64 ltac:(lia)
           {| _data := [0; 0; 4]; isNegative := false |}).
  - words_ok.
  - intros _. discriminate.
Defined.

(** [Int64.min.isPower(of: 8)] returns, although its answer is wrong. *)
Lemma isPower_never_traps_witness :
  exists b,
    isPower 64 64 64 {| isSigned := true; words := [2 ^ 63] |}
      {| isSigned := true; words := [8] |} = Some b.
Proof.
  apply (isPower_never_traps 64 ltac:(lia) 64 64
           {| isSigned := true; words := [2 ^ 63] |}
           {| isSigned := true; words := [8] |}).
  - words_ok.
  - discriminate.
  - words_ok.
  - discriminate.
Defined.

(** [64.isPower(of: 4)] on [Int], by both versions. *)
Lemma isPower_agrees_with_Performance_witness :
  isPower 64 64 64 {| isSigned := true; words := [64] |}
    {| isSigned := true; words := [4] |} =
  Performance.isPower 64 64
    (toZ 64 {| isSigned := true; words := [64] |})
    (toZ 64 {| isSigned := true; words := [4] |}).
Proof.
  apply (isPower_agrees_with_Performance 64 ltac:(lia) 64 64
           {| isSigned := true; words := [64] |}
           {| isSigned := true; words := [4] |}).
  - lia.
  - words_ok.
  - discriminate.
  - intros [_ Hw]. discriminate Hw.
  - words_ok.
  - discriminate.
  - intros [_ Hw]. discriminate Hw.
  - reflexivity.
Defined.

End ConcreteValues.

End IsPowerValues.
